(** * Resilience core of the CSV benchmarking services

    A shallow embedding of

    - [hono-csv-service/src/middleware/rate-limit.ts]
      ([InMemoryRateLimiter], [RedisRateLimiter], [rateLimitMiddleware]),
    - [hono-csv-service/src/rpc/grpc-client.ts] ([CircuitBreaker],
      the connection handling of [GrpcClientPool], [toProtoRegionSummaries],
      [toProtoStats]),
    - the file parser of the Elysia service ([parseCSVBuffer],
      [parseCSVWithRegex], [processCsvFile], [processExcelFile],
      [aggregateRegionData], [calculateNumericStats], [detectFileType]),

    together with the properties the specification states about them and
    further properties read off the code.

    Conventions.  [Date.now()] is an explicit argument of every function
    that reads the clock.  JavaScript numbers that hold counters and
    millisecond timestamps are integers ([Z]); amounts and what is
    computed from them are binary64 numbers ([float]) with the
    operations of the machine.  Text is a list of characters.  A JavaScript [Map<string, _>] whose iteration order is
    irrelevant is a [gmap]; where the order of insertion matters it is an
    association list. *)

From Stdlib Require Import ZArith Floats Lia Ascii String List Sorted.
From stdpp Require Import gmap strings list fin_maps.

Local Open Scope Z_scope.

(** Decimal literals stand for the nearest binary64 number. *)
Set Warnings "-inexact-float".

(** ** Sliding-window rate limiter *)

Module RateLimit.

(** [RateLimitConfig] of [types.ts]; only the two fields the limiter reads. *)
Record RateLimitConfig := {
  windowMs : Z;
  maxRequests : Z
}.

(** The object [checkLimit] resolves to:
    [{ allowed: boolean; remaining: number; resetTime: number }]. *)
Record LimitResult := {
  allowed : bool;
  remaining : Z;
  resetTime : Z
}.

Section InMemoryRateLimiter.

(** [this.config], fixed by the constructor. *)
Variable config : RateLimitConfig.

(** [timestamps.filter(ts => ts > windowStart)]. *)
Definition prune (windowStart : Z) (timestamps : list Z) : list Z :=
  filter (λ ts, windowStart < ts) timestamps.

(** [InMemoryRateLimiter.checkLimit]; [requests] is the private
    [Map<string, number[]>], returned updated. *)
Definition checkLimit (now : Z) (key : string)
    (requests : gmap string (list Z)) : LimitResult * gmap string (list Z) :=
  let windowStart := now - windowMs config in
  let timestamps := default [] (requests !! key) in
  let timestamps := prune windowStart timestamps in
  let allowed := bool_decide (Z.of_nat (length timestamps) < maxRequests config) in
  let remaining := Z.max 0 (maxRequests config - Z.of_nat (length timestamps)) in
  let timestamps := if allowed then timestamps ++ [now] else timestamps in
  let requests := <[key := timestamps]> requests in
  let resetTime :=
    match timestamps with
    | oldest :: _ => oldest + windowMs config
    | [] => now + windowMs config
    end in
  ({| allowed := allowed; remaining := remaining; resetTime := resetTime |},
   requests).

(** [InMemoryRateLimiter.reset]. *)
Definition reset (key : string) (requests : gmap string (list Z))
    : gmap string (list Z) :=
  delete key requests.

(** [InMemoryRateLimiter.cleanup], the periodic sweep: every entry is
    pruned and dropped when nothing is left of it. *)
Definition cleanup (now : Z) (requests : gmap string (list Z))
    : gmap string (list Z) :=
  let windowStart := now - windowMs config in
  omap (λ timestamps,
          let validTimestamps := prune windowStart timestamps in
          match validTimestamps with
          | [] => None
          | _ => Some validTimestamps
          end) requests.

(** The operations that touch the private map, and the maps the limiter
    can hold: it starts empty and only its own methods change it. *)
Inductive op :=
| OpCheck (now : Z) (key : string)
| OpReset (key : string)
| OpCleanup (now : Z).

Definition apply_op (o : op) (requests : gmap string (list Z))
    : gmap string (list Z) :=
  match o with
  | OpCheck now key => (checkLimit now key requests).2
  | OpReset key => reset key requests
  | OpCleanup now => cleanup now requests
  end.

Definition run_ops (ops : list op) : gmap string (list Z) :=
  foldl (λ requests o, apply_op o requests) ∅ ops.

(** A burst: [checkLimit(key)] once per clock reading, in order. *)
Fixpoint burst (times : list Z) (key : string)
    (requests : gmap string (list Z))
    : list LimitResult * gmap string (list Z) :=
  match times with
  | [] => ([], requests)
  | now :: times' =>
      let '(r, requests') := checkLimit now key requests in
      let '(rs, requests'') := burst times' key requests' in
      (r :: rs, requests'')
  end.

End InMemoryRateLimiter.

(** *** Statistics *)

(** The object [getStats] returns. *)
Record LimiterStats := {
  totalKeys : nat;
  totalRequests : nat
}.

(** [InMemoryRateLimiter.getStats]: the size of the map and the summed
    lengths of its lists. *)
Definition getStats (requests : gmap string (list Z)) : LimiterStats :=
  {| totalKeys := size requests;
     totalRequests :=
       map_fold (λ _ timestamps totalRequests,
                   (totalRequests + length timestamps)%nat) 0%nat requests |}.

(** *** The middleware *)

(** The fields of [options] that [rateLimitMiddleware] reads besides
    the key generator; [None] is a property not given. *)
Record Options := {
  o_maxRequests : option Z;
  o_windowMs : option Z
}.

(** How the middleware ends: it calls [next()], or answers 429 with a
    [retryAfter] in seconds. *)
Inductive Outcome :=
| Next
| TooManyRequests (retryAfter : Z).

(** The three headers, as numbers, and the outcome. *)
Record Reply := {
  limit_header : Z;
  remaining_header : Z;
  reset_header : Z;
  outcome : Outcome
}.

(** [Math.ceil(ms / 1000)] for an integer [ms]. *)
Definition ceil_seconds (ms : Z) : Z := (ms + 999) / 1000.

(** The handler [rateLimitMiddleware(options)] returns, for the
    in-memory limiter ([getLimiter()] without Redis).  [global] is
    [RATE_LIMIT_CONFIG], which the limiter was built with; [key] is what
    the key generator gave; [now_reply] is the clock reading of the 429
    branch. *)
Definition rateLimitMiddleware (global : RateLimitConfig) (options : Options)
    (key : string) (now now_reply : Z) (requests : gmap string (list Z))
    : Reply * gmap string (list Z) :=
  let config_maxRequests := default (maxRequests global) (o_maxRequests options) in
  let '(result, requests) := checkLimit global now key requests in
  ({| limit_header := config_maxRequests;
      remaining_header := remaining result;
      reset_header := resetTime result;
      outcome :=
        if allowed result then Next
        else TooManyRequests (ceil_seconds (resetTime result - now_reply)) |},
   requests).

(** *** The Redis-backed limiter

    The client library is external.  Its commands are computations over
    the state [R] of the connection and of the remote store; each may
    reject with an error of type [E], possibly after changing [R]. *)

Section RedisRateLimiter.

Variables R E : Type.

(** A command awaited inside the [try] block. *)
Definition cmd (A : Type) : Type := R → (E + A) * R.

Definition ret {A} (a : A) : cmd A := λ r, (inr a, r).

Definition bind {A B} (c : cmd A) (k : A → cmd B) : cmd B :=
  λ r, match c r with
       | (inl e, r') => (inl e, r')
       | (inr a, r') => k a r'
       end.

#[local] Instance cmd_ret : MRet cmd := @ret.
#[local] Instance cmd_bind : MBind cmd := λ A B k c, bind c k.

(** The five commands [checkLimit] issues on [this.redis]. *)
Record RedisClient := {
  zremrangebyscore : string → Z → Z → cmd Z;
  zcard : string → cmd Z;
  zadd : string → Z → string → cmd Z;
  expire : string → Z → cmd Z;
  (** [zrange(key, start, stop, 'WITHSCORES')]: the flat reply
      [member, score, ...]. *)
  zrange_withscores : string → Z → Z → cmd (list string)
}.

(** The fields of a [RedisRateLimiter]: [enabled], and [redis], which is
    [undefined] until [initializeRedis] has created the client. *)
Record RedisRateLimiter := {
  enabled : bool;
  redis : option RedisClient
}.

Variable config : RateLimitConfig.

(** [parseInt(oldestEntry[1])]; the argument is [None] when the reply
    has no second element. *)
Variable parseInt : option string → Z.

(** [Math.ceil(windowMs / 1000) + 1]. *)
Definition expire_seconds : Z := (windowMs config + 999) / 1000 + 1.

(** The body of the [try] block.  [member] is the sorted-set member
    [`${now}-${Math.random()}`]. *)
Definition try_body (client : RedisClient) (now : Z) (member : string)
    (key : string) : cmd LimitResult :=
  let windowStart := now - windowMs config in
  let redisKey := ("ratelimit:" +:+ key)%string in
  _ ← zremrangebyscore client redisKey 0 windowStart ;
  count ← zcard client redisKey ;
  let allowed := bool_decide (count < maxRequests config) in
  let remaining := Z.max 0 (maxRequests config - count) in
  _ ← (if allowed
       then (_ ← zadd client redisKey now member ;
             expire client redisKey expire_seconds)
       else mret 0) ;
  oldestEntry ← zrange_withscores client redisKey 0 0 ;
  let resetTime :=
    match oldestEntry with
    | _ :: _ => parseInt (oldestEntry !! 1%nat) + windowMs config
    | [] => now + windowMs config
    end in
  mret {| allowed := allowed; remaining := remaining; resetTime := resetTime |}.

(** [RedisRateLimiter.checkLimit].  [requests] is the map of the global
    [inMemoryLimiter], which both fallback paths call; [now_local] is the
    clock reading that call makes.  The function has no error result: the
    guard and the [catch] clause cover every command. *)
Definition redis_checkLimit (self : RedisRateLimiter)
    (now now_local : Z) (member : string) (key : string)
    (r : R) (requests : gmap string (list Z))
    : LimitResult * R * gmap string (list Z) :=
  match enabled self, redis self with
  | true, Some client =>
      match try_body client now member key r with
      | (inr result, r') => (result, r', requests)
      | (inl error, r') =>
          let '(result, requests') := checkLimit config now_local key requests in
          (result, r', requests')
      end
  | _, _ =>
      let '(result, requests') := checkLimit config now_local key requests in
      (result, r, requests')
  end.

(** Some command the check issues rejects: [error] is what it rejected
    with and [r'] the state it left.  One case per [await] of the [try]
    block, each after the commands before it have resolved. *)
Inductive command_rejects (client : RedisClient) (now : Z)
    (member key : string) (r : R) (error : E) (r' : R) : Prop :=
| rejects_zremrangebyscore :
    zremrangebyscore client ("ratelimit:" +:+ key) 0 (now - windowMs config) r
      = (inl error, r') →
    command_rejects client now member key r error r'
| rejects_zcard removed r1 :
    zremrangebyscore client ("ratelimit:" +:+ key) 0 (now - windowMs config) r
      = (inr removed, r1) →
    zcard client ("ratelimit:" +:+ key) r1 = (inl error, r') →
    command_rejects client now member key r error r'
| rejects_zadd removed r1 count r2 :
    zremrangebyscore client ("ratelimit:" +:+ key) 0 (now - windowMs config) r
      = (inr removed, r1) →
    zcard client ("ratelimit:" +:+ key) r1 = (inr count, r2) →
    count < maxRequests config →
    zadd client ("ratelimit:" +:+ key) now member r2 = (inl error, r') →
    command_rejects client now member key r error r'
| rejects_expire removed r1 count r2 added r3 :
    zremrangebyscore client ("ratelimit:" +:+ key) 0 (now - windowMs config) r
      = (inr removed, r1) →
    zcard client ("ratelimit:" +:+ key) r1 = (inr count, r2) →
    count < maxRequests config →
    zadd client ("ratelimit:" +:+ key) now member r2 = (inr added, r3) →
    expire client ("ratelimit:" +:+ key) expire_seconds r3 = (inl error, r') →
    command_rejects client now member key r error r'
| rejects_zrange_admitted removed r1 count r2 added r3 set r4 :
    zremrangebyscore client ("ratelimit:" +:+ key) 0 (now - windowMs config) r
      = (inr removed, r1) →
    zcard client ("ratelimit:" +:+ key) r1 = (inr count, r2) →
    count < maxRequests config →
    zadd client ("ratelimit:" +:+ key) now member r2 = (inr added, r3) →
    expire client ("ratelimit:" +:+ key) expire_seconds r3 = (inr set, r4) →
    zrange_withscores client ("ratelimit:" +:+ key) 0 0 r4 = (inl error, r') →
    command_rejects client now member key r error r'
| rejects_zrange_denied removed r1 count r2 :
    zremrangebyscore client ("ratelimit:" +:+ key) 0 (now - windowMs config) r
      = (inr removed, r1) →
    zcard client ("ratelimit:" +:+ key) r1 = (inr count, r2) →
    ¬ count < maxRequests config →
    zrange_withscores client ("ratelimit:" +:+ key) 0 0 r2 = (inl error, r') →
    command_rejects client now member key r error r'.

(** The shared store is unavailable to a check, or fails during it;
    [r'] is the state the attempt leaves. *)
Inductive store_unusable (self : RedisRateLimiter) (now : Z)
    (member key : string) (r : R) : R → Prop :=
| unusable_disabled :
    enabled self = false → store_unusable self now member key r r
| unusable_no_client :
    redis self = None → store_unusable self now member key r r
| unusable_rejecting client error r' :
    enabled self = true →
    redis self = Some client →
    command_rejects client now member key r error r' →
    store_unusable self now member key r r'.


End RedisRateLimiter.

Arguments zremrangebyscore {R E} _ _ _ _ _.
Arguments zcard {R E} _ _ _.
Arguments zadd {R E} _ _ _ _ _.
Arguments expire {R E} _ _ _ _.
Arguments zrange_withscores {R E} _ _ _ _ _.
Arguments enabled {R E} _.
Arguments redis {R E} _.

(** A client whose connection ([true] = up) drops while [ZCARD] is in
    flight; the other commands resolve on an empty set. *)
Definition flaky_client : RedisClient bool string :=
  {| zremrangebyscore := λ _ _ _ up, (inr 0, up);
     zcard := λ _ _, (inl "ECONNRESET"%string, false);
     zadd := λ _ _ _ up, (inr 1, up);
     expire := λ _ _ up, (inr 1, up);
     zrange_withscores := λ _ _ _ up, (inr [], up) |}.

End RateLimit.

(** ** Circuit breaker *)

Module Breaker.

(** [enum CircuitBreakerState] of [types.ts]. *)
Inductive CircuitBreakerState := Closed | Open | HalfOpen.

#[global] Instance CircuitBreakerState_eq_dec : EqDecision CircuitBreakerState.
Proof. solve_decision. Defined.

(** [interface CircuitBreakerOptions]. *)
Record CircuitBreakerOptions := {
  failureThreshold : Z;
  recoveryTimeout : Z;
  monitoringPeriod : Z
}.

(** The mutable fields of a [CircuitBreaker]. *)
Record CircuitBreaker := {
  state : CircuitBreakerState;
  failureCount : Z;
  successCount : Z;
  lastFailureTime : Z;
  nextAttemptTime : Z
}.

(** The field initialisers of the class. *)
Definition new_breaker : CircuitBreaker :=
  {| state := Closed; failureCount := 0; successCount := 0;
     lastFailureTime := 0; nextAttemptTime := 0 |}.

(** How the promise returned by [fn] settles. *)
Inductive settled (T X : Type) :=
| Resolved (value : T)
| Rejected (error : X).
Arguments Resolved {T X} value.
Arguments Rejected {T X} error.

(** What [execute] throws: its own [new Error('Circuit breaker is OPEN')]
    (the specification's [CircuitOpenError]) or whatever [fn] rejected
    with. *)
Inductive thrown (X : Type) :=
| CircuitOpenError
| FnError (error : X).
Arguments CircuitOpenError {X}.
Arguments FnError {X} error.

(** The clock readings one [execute] call can make: the one of the guard
    on entry, and the two of [onFailure]. *)
Record Clock := {
  at_entry : Z;
  at_failure : Z;
  at_reopen : Z
}.

Section CircuitBreaker.

(** [this.options]. *)
Variable options : CircuitBreakerOptions.

(** [CircuitBreaker.onSuccess]. *)
Definition onSuccess (cb : CircuitBreaker) : CircuitBreaker :=
  let failureCount' := 0 in
  let successCount' := successCount cb + 1 in
  let state' :=
    match state cb with
    | HalfOpen => if bool_decide (3 ≤ successCount') then Closed else HalfOpen
    | s => s
    end in
  {| state := state'; failureCount := failureCount';
     successCount := successCount';
     lastFailureTime := lastFailureTime cb;
     nextAttemptTime := nextAttemptTime cb |}.

(** [CircuitBreaker.onFailure]; [now1] and [now2] are its two
    [Date.now()] readings. *)
Definition onFailure (now1 now2 : Z) (cb : CircuitBreaker) : CircuitBreaker :=
  let failureCount' := failureCount cb + 1 in
  if bool_decide (failureThreshold options ≤ failureCount') then
    {| state := Open; failureCount := failureCount';
       successCount := successCount cb;
       lastFailureTime := now1;
       nextAttemptTime := now2 + recoveryTimeout options |}
  else
    {| state := state cb; failureCount := failureCount';
       successCount := successCount cb;
       lastFailureTime := now1;
       nextAttemptTime := nextAttemptTime cb |}.

(** The first statement of [execute]: the lazy Open -> HalfOpen step. *)
Definition attempt_recovery (now : Z) (cb : CircuitBreaker) : CircuitBreaker :=
  if bool_decide (state cb = Open ∧ nextAttemptTime cb ≤ now) then
    {| state := HalfOpen; failureCount := failureCount cb;
       successCount := 0;
       lastFailureTime := lastFailureTime cb;
       nextAttemptTime := nextAttemptTime cb |}
  else cb.

(** [CircuitBreaker.execute].  [fn] acts on a world [W] (everything a
    call to the downstream operation can observe or change); the result
    is what [execute] returns or throws, the breaker and the world. *)
Definition execute {T X W : Type} (fn : W → settled T X * W)
    (clock : Clock) (cb : CircuitBreaker) (w : W)
    : (thrown X + T) * CircuitBreaker * W :=
  let cb := attempt_recovery (at_entry clock) cb in
  match state cb with
  | Open => (inl CircuitOpenError, cb, w)
  | _ =>
      match fn w with
      | (Resolved result, w') => (inr result, onSuccess cb, w')
      | (Rejected error, w') =>
          (inl (FnError error),
           onFailure (at_failure clock) (at_reopen clock) cb, w')
      end
  end.

(** [CircuitBreaker.reset]. *)
Definition reset (cb : CircuitBreaker) : CircuitBreaker :=
  {| state := Closed; failureCount := 0; successCount := 0;
     lastFailureTime := lastFailureTime cb;
     nextAttemptTime := nextAttemptTime cb |}.

(** A downstream operation instrumented with a call counter. *)
Definition counted {T X W : Type} (fn : W → settled T X * W)
    : W * nat → settled T X * (W * nat) :=
  λ '(w, calls), let '(r, w') := fn w in (r, (w', S calls)).

(** A scripted downstream: the world is the list of outcomes still to
    come, each call consumes one ([true] resolves, [false] rejects; an
    exhausted script resolves). *)
Definition scripted (w : list bool) : settled unit unit * list bool :=
  match w with
  | true :: w' => (Resolved (), w')
  | false :: w' => (Rejected (), w')
  | [] => (Resolved (), [])
  end.

(** The breaker after each call of a sequence of [execute] calls, one
    clock per call. *)
Fixpoint run_trace {T X W : Type} (fn : W → settled T X * W)
    (clocks : list Clock) (cb : CircuitBreaker) (w : W)
    : list CircuitBreaker :=
  match clocks with
  | [] => []
  | clock :: clocks' =>
      let '(_, cb', w') := execute fn clock cb w in
      cb' :: run_trace fn clocks' cb' w'
  end.

(** The failure count as the specification words it for the Closed
    state: failures are counted and no success resets the count. *)
Definition failures_never_reset (outcomes : list bool) : Z :=
  Z.of_nat (length (List.filter negb outcomes)).

(** A clock whose three readings coincide. *)
Definition at_time (t : Z) : Clock :=
  {| at_entry := t; at_failure := t; at_reopen := t |}.


End CircuitBreaker.


(** *** The client pool *)

(** What a call that is let through returns or throws. *)
Definition passed {T X : Type} (r : settled T X) : thrown X + T :=
  match r with
  | Resolved value => inr value
  | Rejected error => inl (FnError error)
  end.


(** [grpc.connectivityState]. *)
Inductive connectivityState :=
| IDLE
| CONNECTING
| READY
| TRANSIENT_FAILURE
| SHUTDOWN.

#[global] Instance connectivityState_eq_dec : EqDecision connectivityState.
Proof. solve_decision. Defined.

(** The error of a call to something that is not a function. *)
Inductive TypeError := NotAFunction.

Section GrpcClientPool.

(** [grpc.Channel] and the generated service client are external, and
    so is the remote call [fn] wraps: [rpc] is that call made with a
    client, on a world [W]. *)
Variables Channel Client : Type.
Variable newChannel : string → Channel.
Variable newClient : string → Client.
Variables T X W : Type.
Variable rpc : Client → W → settled T X * W.

(** [interface ClientConnection]. *)
Record ClientConnection := {
  client : Client;
  channel : Channel;
  lastUsed : Z;
  circuitBreaker : CircuitBreaker
}.

(** The options [createConnection] gives every breaker. *)
Definition pool_options : CircuitBreakerOptions :=
  {| failureThreshold := 5; recoveryTimeout := 30000;
     monitoringPeriod := 60000 |}.

(** [GrpcClientPool.createConnection]. *)
Definition createConnection (now : Z) (target : string) : ClientConnection :=
  {| client := newClient target;
     channel := newChannel target;
     lastUsed := now;
     circuitBreaker := new_breaker |}.

(** [GrpcClientPool.isChannelReady]:
    [channel.getState() === grpc.connectivityState.READY].  [getState]
    is the method as the channel object has it at the time of the call:
    [None] when the object has no property of that name, and the call
    throws a [TypeError]. *)
Definition isChannelReady (getState : Channel → option connectivityState)
    (channel : Channel) : TypeError + bool :=
  match getState channel with
  | None => inl NotAFunction
  | Some s => inr (bool_decide (s = READY))
  end.

(** [GrpcClientPool.getConnection].  [now_created] and [now] are the
    clock readings of [createConnection] and of the [lastUsed] update.
    With no connection stored the channel is not consulted.  The
    connection returned is the object held in the map, so the update of
    [lastUsed] shows there. *)
Definition getConnection (getState : Channel → option connectivityState)
    (now_created now : Z) (target : string)
    (connections : gmap string ClientConnection)
    : TypeError + ClientConnection * gmap string ClientConnection :=
  let used connection :=
    let connection :=
      {| client := client connection; channel := channel connection;
         lastUsed := now; circuitBreaker := circuitBreaker connection |} in
    (connection, <[target := connection]> connections) in
  match connections !! target with
  | None => inr (used (createConnection now_created target))
  | Some connection =>
      match isChannelReady getState (channel connection) with
      | inl error => inl error
      | inr true => inr (used connection)
      | inr false => inr (used (createConnection now_created target))
      end
  end.

(** [GrpcClientPool.processFile] (and [processFileStream], which differs
    in the remote call only): the call goes through the breaker of the
    connection, which [execute] updates in place.  An error thrown by
    [getConnection] leaves everything as it was. *)
Definition processFile (getState : Channel → option connectivityState)
    (now_created now : Z) (clock : Clock) (target : string)
    (connections : gmap string ClientConnection) (w : W)
    : (TypeError + (thrown X + T)) * gmap string ClientConnection * W :=
  match getConnection getState now_created now target connections with
  | inl error => (inl error, connections, w)
  | inr (connection, connections) =>
      let '(result, cb, w') :=
        execute pool_options (rpc (client connection)) clock
          (circuitBreaker connection) w in
      (inr result,
       <[target := {| client := client connection;
                      channel := channel connection;
                      lastUsed := lastUsed connection;
                      circuitBreaker := cb |}]>
         connections,
       w')
  end.

(** [GrpcClientPool.resetCircuitBreaker]. *)
Definition resetCircuitBreaker (target : string)
    (connections : gmap string ClientConnection)
    : gmap string ClientConnection :=
  match connections !! target with
  | Some connection =>
      <[target := {| client := client connection;
                     channel := channel connection;
                     lastUsed := lastUsed connection;
                     circuitBreaker := reset (circuitBreaker connection) |}]>
        connections
  | None => connections
  end.

End GrpcClientPool.

Arguments client {Channel Client} _.
Arguments channel {Channel Client} _.
Arguments lastUsed {Channel Client} _.
Arguments circuitBreaker {Channel Client} _.

End Breaker.

(** ** File ingestion pipeline *)

Module Ingest.

(** Text is a list of characters; a [Buffer] holds ASCII, so that
    [buffer.toString('utf-8')] is the identity. *)
Abbreviation text := (list ascii).

(** A field of a parsed row: [string | number].  A number is a binary64
    value, with the arithmetic and the comparisons of the machine. *)
Inductive value :=
| VStr (s : text)
| VNum (n : float).

(** *** Numbers *)

(** The number nearest to an integer. *)
Definition Z2float (z : Z) : float :=
  SF2Prim (binary_normalize prec emax z 0 false).

(** A counter that starts at zero and is incremented by [count++]. *)
Fixpoint count_number (n : nat) : float :=
  match n with
  | O => 0%float
  | S n' => (count_number n' + 1)%float
  end.

(** [Math.round]: the integer nearest to [x], the larger one when two
    are equally near; a zero result has the sign of [x]; an integral
    [x], an infinity and [NaN] are returned as they are.  A number that
    is not integral is [v / d] for the integer [v] and the power of two
    [d] read from its mantissa and exponent, and the integer sought is
    the floor of [v / d + 1 / 2], that is of [(2 v + d) / (2 d)]; it is
    at most [2 ^ 52] in size, so it is a number. *)
Definition Math_round (x : float) : float :=
  match Prim2SF x with
  | S754_finite s m e =>
      if 0 <=? e then x
      else
        let d := 2 ^ (- e) in
        let v := if s then Z.neg m else Z.pos m in
        let n := (2 * v + d) / (2 * d) in
        if n =? 0 then (if s then (-0)%float else 0%float) else Z2float n
  | _ => x
  end.

(** [Math.round(x * 100) / 100]. *)
Definition round2 (x : float) : float := (Math_round (x * 100) / 100)%float.

(** [Math.min] and [Math.max] of two numbers: [NaN] if one of them is,
    and the negative zero is the smaller zero. *)
Definition Math_min (a b : float) : float :=
  if is_nan a || is_nan b then nan
  else if (a <? b)%float then a
  else if (b <? a)%float then b
  else if get_sign a then a else b.

Definition Math_max (a b : float) : float :=
  if is_nan a || is_nan b then nan
  else if (a <? b)%float then b
  else if (b <? a)%float then a
  else if get_sign a then b else a.

(** *** String primitives *)

Definition is_space (c : ascii) : bool :=
  match c with
  | " " | "009" | "010" | "011" | "012" | "013" => true
  | _ => false
  end%char.

Fixpoint trim_start (s : text) : text :=
  match s with
  | c :: s' => if is_space c then trim_start s' else s
  | [] => []
  end.

(** [String.prototype.trim]. *)
Definition trim (s : text) : text :=
  rev (trim_start (rev (trim_start s))).

(** A string used as a condition: truthy when not empty. *)
Definition truthy (s : text) : bool :=
  match s with [] => false | _ => true end.

(** [content.split(/\r?\n/)]; [cur] is the piece being read, reversed.
    A carriage return alone does not end a line. *)
Fixpoint split_lines_from (cur : text) (s : text) : list text :=
  match s with
  | [] => [rev cur]
  | c :: rest =>
      if Ascii.eqb c "010" then rev cur :: split_lines_from [] rest
      else if Ascii.eqb c "013" then
        match rest with
        | c' :: rest' =>
            if Ascii.eqb c' "010" then rev cur :: split_lines_from [] rest'
            else split_lines_from (c :: cur) rest
        | [] => split_lines_from (c :: cur) rest
        end
      else split_lines_from (c :: cur) rest
  end.

Definition split_lines (content : text) : list text :=
  split_lines_from [] content.

(** [content.split(/\r?\n/).filter(line => line.trim())]. *)
Definition nonblank_lines (content : text) : list text :=
  List.filter (λ line, truthy (trim line)) (split_lines content).

(** [String.prototype.toLowerCase] on ASCII. *)
Definition to_lower (c : ascii) : ascii :=
  let n := nat_of_ascii c in
  if ((65 <=? n) && (n <=? 90))%nat then ascii_of_nat (n + 32) else c.

Definition toLowerCase (s : text) : text := map to_lower s.

(** The class [[a-z0-9]]. *)
Definition is_lower_alnum (c : ascii) : bool :=
  let n := nat_of_ascii c in
  (((97 <=? n) && (n <=? 122)) || ((48 <=? n) && (n <=? 57)))%nat.

(** [header.toLowerCase().replace(/[^a-z0-9]/g, '_')]. *)
Definition normalize_key (header : text) : text :=
  map (λ c, if is_lower_alnum c then c else "_"%char) (toLowerCase header).

Fixpoint is_prefix (p s : text) : bool :=
  match p, s with
  | [], _ => true
  | a :: p', b :: s' => Ascii.eqb a b && is_prefix p' s'
  | _ :: _, [] => false
  end.

(** [String.prototype.includes]. *)
Fixpoint includes (s sub : text) : bool :=
  is_prefix sub s ||
  match s with
  | [] => false
  | _ :: s' => includes s' sub
  end.

(** [value.replace(/[$,]/g, '')]. *)
Definition strip_currency (s : text) : text :=
  List.filter (λ c, negb (Ascii.eqb c "$" || Ascii.eqb c ",")) s.

Definition lit (s : string) : text := list_ascii_of_string s.

(** *** Objects and arrays *)

(** An object created by [{}], as the map of its own properties.  The
    code reads from such objects only properties that [Object.prototype]
    does not have, or looks for a number where [Object.prototype] has
    none, so a read is a lookup.  An assignment [row[key] = v] creates
    or updates an own property, except under the one name that
    [Object.prototype] answers with a setter: that setter ignores a
    string or a number, and the object is left as it was. *)
Definition set_property (key : text) (v : value)
    (row : gmap text value) : gmap text value :=
  if decide (key = lit "__proto__") then row
  else <[key := v]> row.

(** The largest length of an array, [2 ^ 32 - 1]. *)
Definition max_array_length : Z := 4294967295.

(** [array.push(x)]: [inl message] is the [RangeError] thrown when the
    array cannot grow. *)
Definition push {A : Type} (array : list A) (x : A) : text + list A :=
  if Z.of_nat (length array) <? max_array_length then inr (array ++ [x])
  else inl (lit "Invalid array length").

(** *** The line parsers *)

(** The double quote character. *)
Definition dquote : ascii := "034"%char.

(** [parseCSVLine]: the character loop, with [current] kept reversed and
    [result] in order. *)
Fixpoint parseCSVLine_from (line : text) (result : list text)
    (current : text) (inQuotes : bool) : list text :=
  match line with
  | [] => result ++ [trim (rev current)]
  | char :: line' =>
      if Ascii.eqb char dquote then
        parseCSVLine_from line' result current (negb inQuotes)
      else if Ascii.eqb char "," && negb inQuotes then
        parseCSVLine_from line' (result ++ [trim (rev current)]) [] inQuotes
      else
        parseCSVLine_from line' result (char :: current) inQuotes
  end.

Definition parseCSVLine (line : text) : list text :=
  parseCSVLine_from line [] [] false.

(** The longest prefix without a double quote or a comma, which is what
    the class of the second capture group, starred, matches. *)
Fixpoint plain_run (s : text) : text :=
  match s with
  | c :: s' =>
      if Ascii.eqb c dquote || Ascii.eqb c "," then [] else c :: plain_run s'
  | [] => []
  end.

(** The inside of the first capture group at the head of [s]: the
    characters before the first double quote, when there is one. *)
Fixpoint until_quote (s : text) : option text :=
  match s with
  | c :: s' =>
      if Ascii.eqb c dquote then Some []
      else option_map (cons c) (until_quote s')
  | [] => None
  end.

(** The alternation of the pattern matched at the head of [s]: the
    captured value and the number of characters consumed.  The first
    alternative is a double quote, any characters but double quotes
    (captured), and a double quote; the second is any characters but
    double quotes and commas (captured).  The first needs a closing quote;
    the second always matches, possibly nothing. *)
Definition match_field (s : text) : text * nat :=
  match s with
  | c :: s' =>
      if Ascii.eqb c dquote then
        match until_quote s' with
        | Some inner => (inner, (length inner + 2)%nat)
        | None => ([], 0%nat)
        end
      else let run := plain_run s in (run, length run)
  | [] => ([], 0%nat)
  end.

(** Offset of the first comma of [s]. *)
Fixpoint find_comma (s : text) : option nat :=
  match s with
  | c :: s' => if Ascii.eqb c "," then Some 0%nat
               else option_map S (find_comma s')
  | [] => None
  end.

(** [pattern.exec(line)] for the global pattern of [parseLine], which
    is [(?:^|,)] followed by the alternation above, with
    [pattern.lastIndex = lastIndex]:
    the value pushed ([match[1]] if defined, else [match[2]]) and the new
    [lastIndex], or [None] for [null].  The search starts at [lastIndex];
    [^] matches at index 0 only, elsewhere a comma is needed. *)
Definition exec (line : text) (lastIndex : nat) : option (text * nat) :=
  match lastIndex with
  | O => let '(v, n) := match_field line in Some (v, n)
  | _ =>
      match find_comma (drop lastIndex line) with
      | Some off =>
          let start := (lastIndex + off + 1)%nat in
          let '(v, n) := match_field (drop start line) in
          Some (v, (start + n)%nat)
      | None => None
      end
  end.

(** The [while ((match = pattern.exec(line)) !== null)] loop of
    [parseLine], one iteration per unit of [fuel]; [None] is out of
    fuel, [Some (inl message)] an error thrown.  [exec] does not advance
    [lastIndex] past an empty match: the loop then finds the same match
    again and again, and ends when [values] cannot grow any more. *)
Fixpoint parseLine_loop (fuel : nat) (line : text) (lastIndex : nat)
    (values : list text) : option (text + list text) :=
  match fuel with
  | O => None
  | S fuel' =>
      match exec line lastIndex with
      | None => Some (inr values)
      | Some (v, lastIndex') =>
          match push values v with
          | inl error => Some (inl error)
          | inr values' => parseLine_loop fuel' line lastIndex' values'
          end
      end
  end.

Definition parseLine (fuel : nat) (line : text)
    : option (text + list text) :=
  parseLine_loop fuel line 0 [].

(** *** Rows *)

(** [CsvRow]: what [CSV_ROW_SCHEMA.parse] returns. *)
Record CsvRow := {
  region : text;
  country : text;
  amount : float;
  id : option text;
  date : option text;
  category : option text
}.

(** A required [z.string().min(1)] property. *)
Definition required_string (v : option value) : option text :=
  match v with
  | Some (VStr (c :: s)) => Some (c :: s)
  | _ => None
  end.

(** A [z.string().optional()] property: absent, or a string. *)
Definition optional_string (v : option value) : option (option text) :=
  match v with
  | None => Some None
  | Some (VStr s) => Some (Some s)
  | Some (VNum _) => None
  end.

(** A [z.number().finite()] property. *)
Definition finite_number (v : option value) : option float :=
  match v with
  | Some (VNum n) => if is_finite n then Some n else None
  | _ => None
  end.

(** [CSV_ROW_SCHEMA.parse(row)]; [None] when it throws. *)
Definition CSV_ROW_SCHEMA_parse (row : gmap text value) : option CsvRow :=
  region ← required_string (row !! lit "region");
  country ← required_string (row !! lit "country");
  amount ← finite_number (row !! lit "amount");
  id ← optional_string (row !! lit "id");
  date ← optional_string (row !! lit "date");
  category ← optional_string (row !! lit "category");
  Some {| region := region; country := country; amount := amount;
          id := id; date := date; category := category |}.

(** The validation loop shared by [processCsvFile] and
    [processExcelFile]: valid rows are pushed, the others counted. *)
Fixpoint validate_rows (rows : list (gmap text value))
    (validatedRows : list CsvRow) (errorCount : nat)
    : list CsvRow * nat :=
  match rows with
  | [] => (validatedRows, errorCount)
  | row :: rows' =>
      match CSV_ROW_SCHEMA_parse row with
      | Some validated =>
          validate_rows rows' (validatedRows ++ [validated]) errorCount
      | None => validate_rows rows' validatedRows (S errorCount)
      end
  end.

(** *** Aggregation *)

(** [RegionSummary]. *)
Record RegionSummary := {
  s_region : text;
  s_country : text;
  s_count : nat;
  amountSum : float;
  amountAvg : float
}.

(** An entry of the [aggregation] map; [g_count] is the integer held
    by its [count], which is [count_number g_count]. *)
Record Group := {
  g_region : text;
  g_country : text;
  g_count : nat;
  g_amountSum : float
}.

(** The key [`${row.region}:${row.country}`]. *)
Definition group_key (row : CsvRow) : text :=
  region row ++ lit ":" ++ country row.

(** One iteration of the first loop of [aggregateRegionData]; the map
    keeps its entries in insertion order, an existing entry is updated
    in place. *)
Fixpoint add_row (row : CsvRow) (aggregation : list (text * Group))
    : list (text * Group) :=
  match aggregation with
  | [] =>
      [(group_key row,
        {| g_region := region row; g_country := country row;
           g_count := 1; g_amountSum := amount row |})]
  | (key, existing) :: aggregation' =>
      if decide (key = group_key row) then
        (key, {| g_region := g_region existing;
                 g_country := g_country existing;
                 g_count := S (g_count existing);
                 g_amountSum := (g_amountSum existing + amount row)%float |})
        :: aggregation'
      else (key, existing) :: add_row row aggregation'
  end.

(** The object pushed for one entry by the second loop. *)
Definition summarize (data : Group) : RegionSummary :=
  {| s_region := g_region data;
     s_country := g_country data;
     s_count := g_count data;
     amountSum := round2 (g_amountSum data);
     amountAvg :=
       round2 (g_amountSum data / count_number (g_count data)) |}.

Section Pipeline.

(** [String.prototype.localeCompare], [parseFloat] and the workbook
    reader are not part of the repository.  The reader stands for the
    calls the [try] block of [processExcelFile] makes on the [XLSX]
    module for the first sheet: it throws, or gives one object per row
    as its list of entries. *)
Variable localeCompare : text → text → Z.
Variable parseFloat : text → float.
Variable XlsxError : Type.
Variable xlsx_sheet_toJSON : text → XlsxError + list (list (text * value)).
Variable xlsx_message : XlsxError → text.

(** [summaries.sort((a, b) => a.region.localeCompare(b.region))], a
    stable sort. *)
Fixpoint sort_insert (a : RegionSummary) (sorted : list RegionSummary)
    : list RegionSummary :=
  match sorted with
  | [] => [a]
  | b :: sorted' =>
      if bool_decide (localeCompare (s_region a) (s_region b) ≤ 0)
      then a :: b :: sorted'
      else b :: sort_insert a sorted'
  end.

Definition sort_by_region (summaries : list RegionSummary)
    : list RegionSummary :=
  foldr sort_insert [] summaries.

(** [aggregateRegionData]. *)
Definition aggregateRegionData (rows : list CsvRow) : list RegionSummary :=
  let aggregation := foldl (λ agg row, add_row row agg) [] rows in
  let summaries := map (λ '(_, data), summarize data) aggregation in
  sort_by_region summaries.

(** The body of [headers.forEach] in [parseCSVWithRegex]: the key and
    the value stored under it. *)
Definition cell (header : text) (raw : option text) : text * value :=
  let key := normalize_key header in
  let value := match raw with
               | Some (c :: v) => c :: v
               | _ => []
               end in
  if includes key (lit "amount") || includes key (lit "price")
     || includes key (lit "value")
  then
    let num := parseFloat (strip_currency value) in
    if is_nan num then (key, VStr value) else (key, VNum num)
  else (key, VStr value).

(** The row object built for one line. *)
Definition make_row (headers : list text) (values : list text)
    : gmap text value :=
  foldl (λ row '(index, header),
           let '(key, v) := cell header (values !! index) in
           set_property key v row)
        ∅ (imap (λ index header, (index, header)) headers).

(** The [for] loop over the data lines. *)
Fixpoint parse_data_lines (fuel : nat) (headers : list text)
    (lines : list text) (rows : list (gmap text value))
    : option (text + list (gmap text value)) :=
  match lines with
  | [] => Some (inr rows)
  | line :: lines' =>
      parsed ← parseLine fuel line;
      match parsed with
      | inl error => Some (inl error)
      | inr values =>
          if existsb (λ v, truthy (trim v)) values
          then parse_data_lines fuel headers lines'
                 (rows ++ [make_row headers values])
          else parse_data_lines fuel headers lines' rows
      end
  end.

(** [parseCSVWithRegex]: [None] when a [parseLine] loop is still running
    after [fuel] iterations, [Some (inl message)] when it throws. *)
Definition parseCSVWithRegex (fuel : nat) (content : text)
    : option (text + list text * list (gmap text value)) :=
  match nonblank_lines content with
  | [] => Some (inl (lit "CSV file is empty"))
  | first :: rest =>
      parsed ← parseLine fuel first;
      match parsed with
      | inl error => Some (inl error)
      | inr headers =>
          let headers := map trim headers in
          parsed ← parse_data_lines fuel headers rest [];
          match parsed with
          | inl error => Some (inl error)
          | inr rows => Some (inr (headers, rows))
          end
      end
  end.

(** [ProcessingStats]. *)
Record ProcessingStats := {
  parseDurationMs : Z;
  validateDurationMs : Z;
  aggregateDurationMs : Z;
  totalDurationMs : Z
}.

(** [ParseResult]. *)
Record ParseResult := {
  rowCount : nat;
  successCount : nat;
  errorCount : nat;
  summaries : list RegionSummary;
  stats : ProcessingStats
}.

(** The eight clock readings of a run, in program order. *)
Record Timings := {
  startTime : Z;
  parseStart : Z;
  parseEnd : Z;
  validationStart : Z;
  validationEnd : Z;
  aggregateStart : Z;
  aggregateEnd : Z;
  endTime : Z
}.

(** Everything after the parse stage, common to both entry points. *)
Definition finish (t : Timings) (rows : list (gmap text value))
    : ParseResult :=
  let '(validatedRows, errorCount) := validate_rows rows [] 0 in
  let summaries := aggregateRegionData validatedRows in
  {| rowCount := length rows;
     successCount := length validatedRows;
     errorCount := errorCount;
     summaries := summaries;
     stats := {| parseDurationMs := parseEnd t - parseStart t;
                 validateDurationMs := validationEnd t - validationStart t;
                 aggregateDurationMs := aggregateEnd t - aggregateStart t;
                 totalDurationMs := endTime t - startTime t |} |}.

(** [processCsvFile]: [Some (inl message)] is the error it throws. *)
Definition processCsvFile (fuel : nat) (t : Timings) (buffer : text)
    : option (text + ParseResult) :=
  parsed ← parseCSVWithRegex fuel buffer;
  match parsed with
  | inl message => Some (inl (lit "Failed to parse CSV: " ++ message))
  | inr (_, rows) => Some (inr (finish t rows))
  end.

(** The key normalisation of [processExcelFile] for one sheet row. *)
Definition normalize_row (row : list (text * value)) : gmap text value :=
  foldl (λ normalized '(key, v), set_property (normalize_key key) v normalized)
        ∅ row.

(** [processExcelFile]. *)
Definition processExcelFile (t : Timings) (buffer : text)
    : text + ParseResult :=
  match xlsx_sheet_toJSON buffer with
  | inl error =>
      inl (lit "Failed to parse Excel file: " ++ xlsx_message error)
  | inr rawData => inr (finish t (map normalize_row rawData))
  end.

End Pipeline.

(** *** Vocabulary of the statements *)

(** A row passes schema validation. *)
Definition valid (row : gmap text value) : bool :=
  match CSV_ROW_SCHEMA_parse row with Some _ => true | None => false end.

(** The validated rows that fall under one aggregation key, in order. *)
Definition group_rows (key : text) (rows : list CsvRow) : list CsvRow :=
  List.filter (λ row, bool_decide (group_key row = key)) rows.

(** The running sum the aggregator keeps for a group: the first amount,
    then each further amount added in order, unrounded. *)
Definition sum_amounts (rows : list CsvRow) : float :=
  match rows with
  | [] => 0%float
  | row :: rows' =>
      foldl (λ acc row', (acc + amount row')%float) (amount row) rows'
  end.

(** A summary stands for the rows of one aggregation key: [count] is
    their number, [amountSum] their running sum rounded to two decimals,
    [amountAvg] the unrounded sum over [count], then rounded. *)
Definition summary_of (rows : list CsvRow) (s : RegionSummary) : Prop :=
  ∃ key,
    let members := group_rows key rows in
    members ≠ [] ∧
    s_count s = length members ∧
    amountSum s = round2 (sum_amounts members) ∧
    amountAvg s =
      round2 (sum_amounts members / count_number (length members)).

(** A field as written on a line: enclosed in double quotes, or bare. *)
Inductive field :=
| Quoted (s : text)
| Plain (s : text).

Definition content (f : field) : text :=
  match f with Quoted s | Plain s => s end.

Definition render (f : field) : text :=
  match f with
  | Quoted s => dquote :: s ++ [dquote]
  | Plain s => s
  end.

(** The fields joined by commas. *)
Fixpoint render_line (fields : list field) : text :=
  match fields with
  | [] => []
  | [f] => render f
  | f :: fields' => render f ++ ","%char :: render_line fields'
  end.







(** The value stored for a field read from a line, under a key: the
    number [parseFloat] reads from it in a column that is tried as a
    number, the text itself otherwise. *)
Definition stored (parseFloat : text → float) (key : text) (raw : text)
    : value :=
  let num := parseFloat (strip_currency raw) in
  if (includes key (lit "amount") || includes key (lit "price")
      || includes key (lit "value")) && negb (is_nan num)
  then VNum num else VStr raw.


(** The counters of a result, for the rows that reached validation. *)
Definition counts_of (rows : list (gmap text value)) (res : ParseResult)
    : Prop :=
  rowCount res = length rows ∧
  successCount res = length (List.filter valid rows) ∧
  errorCount res = length (List.filter (λ row, negb (valid row)) rows) ∧
  rowCount res = (successCount res + errorCount res)%nat.

(** *** A decimal reader

    Used where a statement is evaluated on sample input: [parseFloat] on
    an optionally signed decimal literal without exponent.  The digits
    are read as an integer and divided by the power of ten, which gives
    the nearest number when both are exact, that is up to fifteen
    digits. *)

Definition digit_of (c : ascii) : option Z :=
  let n := nat_of_ascii c in
  if ((48 <=? n) && (n <=? 57))%nat then Some (Z.of_nat (n - 48)) else None.

(** The digits at the head of [s]: their value after [acc], how many
    there are, and the rest. *)
Fixpoint read_digits (s : text) (acc : Z) (count : nat) : Z * nat * text :=
  match s with
  | c :: s' =>
      match digit_of c with
      | Some d => read_digits s' (10 * acc + d) (S count)
      | None => (acc, count, s)
      end
  | [] => (acc, count, [])
  end.

Definition parse_decimal (s : text) : float :=
  let s := trim_start s in
  let '(negative, s) :=
    match s with
    | c :: s' =>
        if Ascii.eqb c "-" then (true, s')
        else if Ascii.eqb c "+" then (false, s') else (false, s)
    | [] => (false, s)
    end in
  let '(int_part, n1, rest) := read_digits s 0 0 in
  let '(all_digits, n2) :=
    match rest with
    | c :: rest' =>
        if Ascii.eqb c "." then
          let '(v, n, _) := read_digits rest' int_part 0 in (v, n)
        else (int_part, 0%nat)
    | [] => (int_part, 0%nat)
    end in
  if (n1 + n2 =? 0)%nat then nan
  else
    let magnitude := (Z2float all_digits / Z2float (10 ^ Z.of_nat n2))%float in
    if negative then (- magnitude)%float else magnitude.


(** *** The character-loop parser *)

(** The row object [parseCSVBuffer] builds for one line: every header,
    normalised, with the value at its index or the empty string. *)
Definition buffer_row (headers values : list text) : gmap text value :=
  foldl (λ row '(index, header),
           set_property (normalize_key header)
             (VStr (match values !! index with
                    | Some (c :: v) => c :: v
                    | _ => []
                    end)) row)
        ∅ (imap (λ index header, (index, header)) headers).

(** The [for] loop of [parseCSVBuffer] over the data lines. *)
Fixpoint buffer_rows (headers : list text) (lines : list text)
    (rows : list (gmap text value)) : list (gmap text value) :=
  match lines with
  | [] => rows
  | line :: lines' =>
      let values := parseCSVLine line in
      if (0 <? length values)%nat
      then buffer_rows headers lines' (rows ++ [buffer_row headers values])
      else buffer_rows headers lines' rows
  end.

(** [parseCSVBuffer]; [inl message] is the error it throws. *)
Definition parseCSVBuffer (buffer : text)
    : text + list text * list (gmap text value) :=
  match nonblank_lines buffer with
  | [] => inl (lit "CSV file is empty")
  | first :: rest =>
      let headers := parseCSVLine first in
      inr (headers, buffer_rows headers rest [])
  end.

(** A line on which the first match of the pattern is empty: it is
    empty, starts with a comma, or starts with a double quote that is
    never closed. *)
Definition starts_stuck (line : text) : bool :=
  match line with
  | [] => true
  | c :: rest =>
      Ascii.eqb c "," ||
      (Ascii.eqb c dquote && negb (existsb (λ c', Ascii.eqb c' dquote) rest))
  end.

(** A key whose column [parseCSVWithRegex] tries to read as a number. *)
Definition amount_like (key : text) : bool :=
  includes key (lit "amount") || includes key (lit "price")
  || includes key (lit "value").

(** *** The order of numbers

    Used in the proofs about [Math.min] and [Math.max]. *)

(** The place of a number that is not [NaN] in the order of the
    numbers: its class, then exponent and mantissa. *)
Definition place (f : spec_float) : Z * Z * Z :=
  match f with
  | S754_infinity true => (-2, 0, 0)
  | S754_finite true m e => (-1, - e, Z.neg m)
  | S754_zero _ | S754_nan => (0, 0, 0)
  | S754_finite false m e => (1, e, Z.pos m)
  | S754_infinity false => (2, 0, 0)
  end.

Definition place_compare (a b : Z * Z * Z) : comparison :=
  match a.1.1 ?= b.1.1 with
  | Eq => match a.1.2 ?= b.1.2 with
          | Eq => a.2 ?= b.2
          | c => c
          end
  | c => c
  end.

(** One place strictly before another. *)
Definition before (a b : Z * Z * Z) : Prop :=
  a.1.1 < b.1.1 ∨
  (a.1.1 = b.1.1 ∧ (a.1.2 < b.1.2 ∨ (a.1.2 = b.1.2 ∧ a.2 < b.2))).


(** *** Statistics of a numeric field *)

(** The object [calculateNumericStats] returns; [stat_count] is the
    integer held by its [count]. *)
Record NumericStats := {
  stat_min : float;
  stat_max : float;
  stat_sum : float;
  stat_avg : float;
  stat_count : nat
}.

(** The value the loop takes from a row: [row[field]] when it is a
    number and not [NaN]. *)
Definition numeric_field (field : text) (row : gmap text value)
    : option float :=
  match row !! field with
  | Some (VNum n) => if is_nan n then None else Some n
  | _ => None
  end.

(** The loop of [calculateNumericStats] on [min], [max], [sum] and
    [count]. *)
Fixpoint numeric_loop (field : text) (rows : list (gmap text value))
    (min max sum : float) (count : nat) : float * float * float * nat :=
  match rows with
  | [] => (min, max, sum, count)
  | row :: rows' =>
      match numeric_field field row with
      | Some v =>
          numeric_loop field rows' (Math_min min v) (Math_max max v)
            (sum + v)%float (S count)
      | None => numeric_loop field rows' min max sum count
      end
  end.

(** [calculateNumericStats]. *)
Definition calculateNumericStats (rows : list (gmap text value))
    (field : text) : NumericStats :=
  let '(min, max, sum, count) :=
    numeric_loop field rows infinity neg_infinity 0%float 0 in
  {| stat_min := if (min =? infinity)%float then 0%float else min;
     stat_max := if (max =? neg_infinity)%float then 0%float else max;
     stat_sum := round2 sum;
     stat_avg := match count with
                 | O => 0%float
                 | _ => round2 (sum / count_number count)
                 end;
     stat_count := count |}.

(** The sum of a list of numbers, as the loop adds them up from zero. *)
Definition sum_from_zero (vs : list float) : float :=
  foldl PrimFloat.add 0%float vs.

(** *** File type detection *)

Definition hex_digit (n : nat) : ascii :=
  nth n (lit "0123456789abcdef") "0"%char.

(** Two lower-case hexadecimal digits per byte, as
    [buffer.toString('hex')] writes them. *)
Definition hex_byte (b : ascii) : text :=
  let n := nat_of_ascii b in [hex_digit (n / 16); hex_digit (n mod 16)].

Definition to_hex (bytes : text) : text := flat_map hex_byte bytes.

Inductive FileType := Csv | Xlsx | UnknownType.

(** [detectFileType].  The buffer is a list of bytes.  Decoding a prefix
    as UTF-8 keeps every byte below 128 as the character of that code
    and yields such a character from no other byte, so the two
    [includes] tests of the decoded text are made on the bytes. *)
Definition detectFileType (buffer : text) : FileType :=
  let header := to_hex (take 8 buffer) in
  if bool_decide (header = lit "504b0304"
                  ∨ header = lit "d0cf11e0a1b11ae1")
  then Xlsx
  else
    let content := take (Nat.min 1000 (length buffer)) buffer in
    if includes content (lit ",") && includes content ["010"%char]
    then Csv
    else UnknownType.

(** The signatures [detectFileType] compares with: the first four bytes
    of a ZIP archive and the eight bytes of an OLE compound file. *)
Definition zip_signature : text := ["080"; "075"; "003"; "004"]%char.

Definition ole_signature : text :=
  ["208"; "207"; "017"; "224"; "161"; "177"; "026"; "225"]%char.

(** *** Sample input *)

(** The end-to-end scenario of the specification. *)
Definition sample : text :=
  lit "id,region,country,amount" ++ ["010"%char] ++
  lit "1,EU,DE,100" ++ ["010"%char] ++
  lit "2,EU,DE,50" ++ ["010"%char] ++
  lit "3,,FR,30" ++ ["010"%char].

(** A comparison of texts by character codes, standing in for
    [localeCompare] on sample input. *)
Fixpoint compare_codes (a b : text) : Z :=
  match a, b with
  | [], [] => 0
  | [], _ :: _ => -1
  | _ :: _, [] => 1
  | x :: a', y :: b' =>
      match Nat.compare (nat_of_ascii x) (nat_of_ascii y) with
      | Lt => -1
      | Gt => 1
      | Eq => compare_codes a' b'
      end
  end.

End Ingest.

(** ** Conversion to the wire format *)

Module Proto.
Import Ingest.

(** A value of type [any] held by a property of an object passed to
    the converters: a string, a number that is a counter or a duration
    in milliseconds (an integer), or another number. *)
Inductive any :=
| AStr (s : text)
| AInt (z : Z)
| ANum (x : float).

(** A property read from an object: [None] is [undefined].  A value is
    falsy when it is [undefined], the empty string, a zero or [NaN]. *)
Definition js_truthy (v : option any) : bool :=
  match v with
  | None => false
  | Some (AStr s) => truthy s
  | Some (AInt z) => negb (z =? 0)
  | Some (ANum x) => negb (is_zero x || is_nan x)
  end.

(** [a || b]. *)
Definition js_or (a b : option any) : option any :=
  if js_truthy a then a else b.

(** The object [toProtoRegionSummaries] builds for one summary. *)
Record ProtoSummary := {
  p_region : option any;
  p_country : option any;
  p_count : option any;
  amount_sum : option any;
  amount_avg : option any
}.

(** The callback of [toProtoRegionSummaries]. *)
Definition toProtoRegionSummary (summary : gmap text any) : ProtoSummary :=
  {| p_region := summary !! lit "region";
     p_country := summary !! lit "country";
     p_count := summary !! lit "count";
     amount_sum := js_or (summary !! lit "amountSum") (summary !! lit "amount_sum");
     amount_avg := js_or (summary !! lit "amountAvg") (summary !! lit "amount_avg") |}.

Definition toProtoRegionSummaries (summaries : list (gmap text any))
    : list ProtoSummary :=
  map toProtoRegionSummary summaries.

(** The object [toProtoStats] returns. *)
Record ProtoStats := {
  parse_duration_ms : option any;
  validate_duration_ms : option any;
  aggregate_duration_ms : option any;
  total_duration_ms : option any
}.

(** [toProtoStats]. *)
Definition toProtoStats (stats : gmap text any) : ProtoStats :=
  {| parse_duration_ms :=
       js_or (stats !! lit "parseDurationMs") (stats !! lit "parse_duration_ms");
     validate_duration_ms :=
       js_or (stats !! lit "validateDurationMs")
             (stats !! lit "validate_duration_ms");
     aggregate_duration_ms :=
       js_or (stats !! lit "aggregateDurationMs")
             (stats !! lit "aggregate_duration_ms");
     total_duration_ms :=
       js_or (stats !! lit "totalDurationMs") (stats !! lit "total_duration_ms") |}.

(** A [RegionSummary] and a [ProcessingStats] of the parser, as the
    objects they are. *)
Definition summary_object (s : RegionSummary) : gmap text any :=
  <[lit "region" := AStr (s_region s)]>
  (<[lit "country" := AStr (s_country s)]>
  (<[lit "count" := AInt (Z.of_nat (s_count s))]>
  (<[lit "amountSum" := ANum (amountSum s)]>
  (<[lit "amountAvg" := ANum (amountAvg s)]> ∅)))).

Definition stats_object (st : ProcessingStats) : gmap text any :=
  <[lit "parseDurationMs" := AInt (parseDurationMs st)]>
  (<[lit "validateDurationMs" := AInt (validateDurationMs st)]>
  (<[lit "aggregateDurationMs" := AInt (aggregateDurationMs st)]>
  (<[lit "totalDurationMs" := AInt (totalDurationMs st)]> ∅))).

End Proto.

(** * Properties *)

(** ** Rate limiter *)

Module RateLimitProofs.
Import RateLimit.

Section Local.

Variable config : RateLimitConfig.

Lemma prune_live (windowStart : Z) (l : list Z) :
  Forall (λ ts, windowStart < ts) l → prune windowStart l = l.
Proof.
  induction 1 as [|ts l Hts _ IH]; [done|].
  unfold prune in *. rewrite filter_cons_True by done. by rewrite IH.
Qed.

Lemma prune_expired (windowStart : Z) (l : list Z) :
  Forall (λ ts, ts ≤ windowStart) l → prune windowStart l = [].
Proof.
  induction 1 as [|ts l Hts _ IH]; [done|].
  unfold prune in *. rewrite filter_cons_False by lia. done.
Qed.

Lemma prune_spec (windowStart : Z) (l : list Z) :
  Forall (λ ts, windowStart < ts) (prune windowStart l).
Proof. unfold prune. apply Forall_forall. intros ts [H _]%list_elem_of_filter. done. Qed.

Lemma prune_length (windowStart : Z) (l : list Z) :
  (length (prune windowStart l) ≤ length l)%nat.
Proof. apply length_filter. Qed.

(** The list [checkLimit] stores for the key it was asked about. *)
Lemma checkLimit_stored (now : Z) (key : string) (requests : gmap string (list Z)) :
  let pruned := prune (now - windowMs config) (default [] (requests !! key)) in
  (checkLimit config now key requests).2 !! key =
    Some (if allowed (checkLimit config now key requests).1
          then pruned ++ [now] else pruned).
Proof. cbn. by rewrite lookup_insert_eq. Qed.

Lemma checkLimit_allowed (now : Z) (key : string) (requests : gmap string (list Z)) :
  allowed (checkLimit config now key requests).1 =
  bool_decide (Z.of_nat (length (prune (now - windowMs config)
                                   (default [] (requests !! key))))
               < maxRequests config).
Proof. done. Qed.

(** A burst on a key whose stored timestamps are all live for the whole
    burst: calls are admitted until the list holds [N] timestamps. *)
Lemma burst_live (N : nat) (key : string) (lo : Z) (times : list Z) :
  maxRequests config = Z.of_nat N →
  ∀ (l : list Z) (requests : gmap string (list Z)),
  requests !! key = Some l →
  Forall (λ t, lo ≤ t < lo + windowMs config) (l ++ times) →
  ∃ l', (burst config times key requests).2 !! key = Some l' ∧
        l' ⊆ l ++ times ∧
        allowed <$> (burst config times key requests).1 =
          replicate (Nat.min (N - length l) (length times)) true ++
          replicate (length times - (N - length l)) false.
Proof.
  intros HN. induction times as [|t times IH]; intros l requests Hl Hwin.
  - exists l. cbn. rewrite Hl, Nat.min_0_r. split_and!; [done|set_solver|done].
  - apply Forall_app in Hwin as [Hl_win Htimes].
    apply Forall_cons in Htimes as [Ht Htimes].
    cbn [burst].
    pose proof (checkLimit_stored t key requests) as Hst.
    pose proof (checkLimit_allowed t key requests) as Hal.
    destruct (checkLimit config t key requests) as [r requests1] eqn:Hc.
    cbn [fst snd] in Hst, Hal. rewrite Hl in Hst, Hal.
    cbn [default from_option] in Hst, Hal. unfold id in Hst, Hal.
    rewrite prune_live in Hst, Hal
      by (eapply Forall_impl; [exact Hl_win|]; cbn; intros; lia).
    specialize (IH (if allowed r then l ++ [t] else l) requests1 Hst).
    destruct (burst config times key requests1) as [rs requests2] eqn:Hb.
    cbn [fst snd] in *.
    rewrite Hal in *. rewrite HN in *.
    case_bool_decide as Hlt.
    + destruct IH as (l' & Hl' & Hsub & Hrs).
      { rewrite <- app_assoc. apply Forall_app. split; [done|].
        apply Forall_cons. done. }
      exists l'. split_and!; [done| |].
      * rewrite <- app_assoc in Hsub. done.
      * cbn [fmap list_fmap]. fold (fmap (M:=list) allowed rs). rewrite Hrs.
        rewrite length_app. cbn [length].
        replace (N - length l)%nat with (S (N - (length l + 1)))%nat by lia.
        cbn [Nat.min replicate Nat.sub app]. by rewrite Hal.
    + destruct IH as (l' & Hl' & Hsub & Hrs).
      { apply Forall_app. done. }
      exists l'. split_and!; [done| |].
      * intros x Hx%Hsub. rewrite elem_of_app in Hx.
        rewrite elem_of_app, elem_of_cons. tauto.
      * cbn [fmap list_fmap]. fold (fmap (M:=list) allowed rs). rewrite Hrs.
        replace (N - length l)%nat with 0%nat by lia.
        cbn [Nat.min replicate app]. rewrite !Nat.sub_0_r, Hal. done.
Qed.

(** C3.  With [maxRequests = N] (at least one), a burst of [N + 1]
    [checkLimit] calls for one key, all within one window of the first
    and with no live timestamp stored for the key beforehand, admits the
    first [N] calls and denies the last; a check made once [windowMs] has
    elapsed since every call of the burst is admitted again. *)
Theorem burst_admits_quota_then_recovers
    (N : nat) (key : string) (requests : gmap string (list Z))
    (first : Z) (times : list Z) (later : Z) :
  maxRequests config = Z.of_nat N →
  (0 < N)%nat →
  length times = N →
  Forall (λ t, first ≤ t < first + windowMs config) (first :: times) →
  Forall (λ old, old + windowMs config ≤ first) (default [] (requests !! key)) →
  Forall (λ t, t + windowMs config ≤ later) (first :: times) →
  let '(results, requests') := burst config (first :: times) key requests in
  allowed <$> results = replicate N true ++ [false] ∧
  allowed (checkLimit config later key requests').1 = true.
Proof.
  intros HN Hpos Hlen Hwin Hold Hlater.
  cbn [burst].
  pose proof (checkLimit_stored first key requests) as Hst.
  pose proof (checkLimit_allowed first key requests) as Hal.
  destruct (checkLimit config first key requests) as [r requests1] eqn:Hc.
  cbn [fst snd] in Hst, Hal.
  rewrite prune_expired in Hst, Hal
    by (eapply Forall_impl; [exact Hold|]; cbn; intros; lia).
  rewrite HN in Hal. cbn [length] in Hal.
  rewrite bool_decide_eq_true_2 in Hal by lia. rewrite Hal in Hst.
  cbn [app] in Hst.
  destruct (burst_live N key first times HN [first] requests1 Hst)
    as (l' & Hl' & Hsub & Hrs); [done|].
  destruct (burst config times key requests1) as [rs requests2] eqn:Hb.
  cbn [fst snd] in *. split.
  - cbn [fmap list_fmap]. fold (fmap (M:=list) allowed rs).
    rewrite Hrs, Hal, Hlen. cbn [length].
    replace (Nat.min (N - 1) N) with (N - 1)%nat by lia.
    replace (N - (N - 1))%nat with 1%nat by lia.
    destruct N as [|n]; [lia|]. cbn. by rewrite Nat.sub_0_r.
  - rewrite checkLimit_allowed, Hl'. cbn [default from_option]. unfold id.
    rewrite prune_expired.
    + apply bool_decide_eq_true_2. cbn. lia.
    + apply Forall_forall. intros s Hs. apply Hsub in Hs.
      rewrite Forall_forall in Hlater. specialize (Hlater s Hs). lia.
Qed.

(** C4, as amended.  [remaining] is computed from the number of live
    timestamps before the decision: it is [max(0, maxRequests - count)]
    for the pruned list, to which an admitted call then adds its own
    timestamp.  So it equals the claimed value on a denial, and exceeds
    the count-after-decision formula by the call's own slot on an
    admission. *)
Theorem remaining_counts_before_append
    (now : Z) (key : string) (requests : gmap string (list Z)) :
  let count_before :=
    Z.of_nat (length (prune (now - windowMs config)
                            (default [] (requests !! key)))) in
  let '(r, requests') := checkLimit config now key requests in
  let count_after := Z.of_nat (length (default [] (requests' !! key))) in
  remaining r = Z.max 0 (maxRequests config - count_before) ∧
  count_after = count_before + (if allowed r then 1 else 0) ∧
  (allowed r = false →
     remaining r = Z.max 0 (maxRequests config - count_after)) ∧
  (allowed r = true →
     remaining r = maxRequests config - count_after + 1).
Proof.
  intros count_before.
  pose proof (checkLimit_stored now key requests) as Hst.
  pose proof (checkLimit_allowed now key requests) as Hal.
  assert (remaining (checkLimit config now key requests).1 =
          Z.max 0 (maxRequests config - count_before)) as Hrem by done.
  cbn zeta in Hst. subst count_before.
  set (pruned := prune (now - windowMs config) (default [] (requests !! key))) in *.
  destruct (checkLimit config now key requests) as [r requests'].
  cbn [fst snd] in *. rewrite Hst. cbn [default from_option id].
  destruct (allowed r); symmetry in Hal.
  - apply bool_decide_eq_true_1 in Hal. rewrite length_app. cbn [length].
    split_and!; [done|lia|done|lia].
  - apply bool_decide_eq_false_1 in Hal.
    split_and!; [done|lia| |done]. intros _. rewrite Hrem. done.
Qed.

(** Every map the limiter can hold keeps at most [maxRequests]
    timestamps per key. *)
Lemma apply_op_bounded (o : op) (requests : gmap string (list Z)) :
  0 ≤ maxRequests config →
  (∀ k l, requests !! k = Some l → Z.of_nat (length l) ≤ maxRequests config) →
  ∀ k l, apply_op config o requests !! k = Some l →
         Z.of_nat (length l) ≤ maxRequests config.
Proof.
  intros Hmax Hinv k l. destruct o as [now key|key|now]; cbn [apply_op].
  - destruct (decide (key = k)) as [->|Hne].
    + rewrite checkLimit_stored, checkLimit_allowed. intros [= <-].
      pose proof (prune_length (now - windowMs config)
                    (default [] (requests !! k))) as Hle.
      case_bool_decide as Hlt.
      * rewrite length_app. cbn [length]. lia.
      * destruct (requests !! k) as [l0|] eqn:Hk; cbn in *.
        -- specialize (Hinv k l0 Hk). lia.
        -- lia.
    + cbn. rewrite lookup_insert_ne by done. apply Hinv.
  - unfold reset. intros [_ H]%lookup_delete_Some. eapply Hinv, H.
  - unfold cleanup. rewrite lookup_omap.
    destruct (requests !! k) as [l0|] eqn:Hk; cbn; [|done].
    pose proof (prune_length (now - windowMs config) l0) as Hle.
    specialize (Hinv k l0 Hk).
    destruct (prune (now - windowMs config) l0) eqn:Hp; [done|].
    intros [= <-]. cbn [length] in *. lia.
Qed.

Lemma run_ops_bounded (ops : list op) :
  0 ≤ maxRequests config →
  ∀ k l, run_ops config ops !! k = Some l →
         Z.of_nat (length l) ≤ maxRequests config.
Proof.
  intros Hmax. unfold run_ops.
  assert (∀ requests : gmap string (list Z),
            (∀ k l, requests !! k = Some l →
                    Z.of_nat (length l) ≤ maxRequests config) →
            ∀ k l, foldl (λ requests o, apply_op config o requests)
                     requests ops !! k = Some l →
                   Z.of_nat (length l) ≤ maxRequests config) as Hgen.
  { induction ops as [|o ops IH]; intros requests Hinv; [exact Hinv|].
    cbn [foldl]. apply IH. by apply apply_op_bounded. }
  apply Hgen. intros k l. by rewrite lookup_empty.
Qed.

(** C10.  For a limiter with a positive window and a non-negative quota,
    in any state its own operations can have produced: after
    [checkLimit(key)] the list stored for the key holds only timestamps
    strictly newer than [now - windowMs], is no longer than
    [maxRequests], and after a denial is exactly the previous list with
    the expired entries pruned. *)
Theorem checkLimit_keeps_window_invariant
    (ops : list op) (now : Z) (key : string) :
  0 < windowMs config →
  0 ≤ maxRequests config →
  let requests := run_ops config ops in
  let '(r, requests') := checkLimit config now key requests in
  ∃ stored,
    requests' !! key = Some stored ∧
    Forall (λ ts, now - windowMs config < ts) stored ∧
    Z.of_nat (length stored) ≤ maxRequests config ∧
    (allowed r = false →
       stored = prune (now - windowMs config) (default [] (requests !! key))).
Proof.
  intros Hwin Hmax requests.
  pose proof (checkLimit_stored now key requests) as Hst.
  pose proof (apply_op_bounded (OpCheck now key) requests Hmax
                (run_ops_bounded ops Hmax) key) as Hlen.
  cbn [apply_op] in Hlen.
  destruct (checkLimit config now key requests) as [r requests'].
  cbn [fst snd] in *. eexists. split; [exact Hst|]. split_and!.
  - destruct (allowed r).
    + apply Forall_app. split; [apply prune_spec|].
      apply Forall_singleton. lia.
    + apply prune_spec.
  - by apply Hlen.
  - by intros ->.
Qed.

End Local.

Section Shared.

Variables R E : Type.
Variable config : RateLimitConfig.
Variable parseInt : option string → Z.

(** The [try] block rejects exactly when one of its commands does. *)
Lemma try_body_rejects (client : RedisClient R E) (now : Z)
    (member key : string) (r : R) (error : E) (r' : R) :
  try_body R E config parseInt client now member key r = (inl error, r') ↔
  command_rejects R E config client now member key r error r'.
Proof.
  unfold try_body, mbind, cmd_bind, bind, mret, cmd_ret, ret. split.
  - destruct (zremrangebyscore _ _ _ _ r) as [[e1|removed] r1] eqn:H1.
    { intros [= <- <-]. by apply rejects_zremrangebyscore. }
    destruct (zcard _ _ r1) as [[e2|count] r2] eqn:H2.
    { intros [= <- <-]. by eapply rejects_zcard. }
    case_bool_decide as Hlt.
    + destruct (zadd _ _ _ _ r2) as [[e3|added] r3] eqn:H3.
      { intros [= <- <-]. by eapply rejects_zadd. }
      destruct (expire _ _ _ r3) as [[e4|set] r4] eqn:H4.
      { intros [= <- <-]. by eapply rejects_expire. }
      destruct (zrange_withscores _ _ _ _ r4) as [[e5|oldest] r5] eqn:H5.
      { intros [= <- <-]. by eapply rejects_zrange_admitted. }
      intros [=].
    + destruct (zrange_withscores _ _ _ _ r2) as [[e5|oldest] r5] eqn:H5.
      { intros [= <- <-]. by eapply rejects_zrange_denied. }
      intros [=].
  - intros [H1|? ? H1 H2|? ? ? ? H1 H2 Hlt H3|? ? ? ? ? ? H1 H2 Hlt H3 H4
           |? ? ? ? ? ? ? ? H1 H2 Hlt H3 H4 H5|? ? ? ? H1 H2 Hlt H5];
      rewrite H1; try done; rewrite H2; try done.
    + rewrite bool_decide_eq_true_2 by done. by rewrite H3.
    + rewrite bool_decide_eq_true_2 by done. by rewrite H3, H4.
    + rewrite bool_decide_eq_true_2 by done. by rewrite H3, H4, H5.
    + rewrite bool_decide_eq_false_2 by done. by rewrite H5.
Qed.

(** C9.  Whenever the shared store is unavailable (the limiter is
    disabled or has no client) or any command of the check rejects,
    [RedisRateLimiter.checkLimit] resolves to the decision of the
    in-memory limiter for that key, which records the request in its own
    map.  The function has no throwing path, so the failure never reaches
    the caller. *)
Theorem shared_limiter_falls_back (self : RedisRateLimiter R E)
    (now now_local : Z) (member key : string) (r r' : R)
    (requests : gmap string (list Z)) :
  store_unusable R E config self now member key r r' →
  redis_checkLimit R E config parseInt self now now_local member key r requests
  = ((checkLimit config now_local key requests).1, r',
     (checkLimit config now_local key requests).2).
Proof.
  intros Hbad. unfold redis_checkLimit.
  destruct (checkLimit config now_local key requests) as [result requests'].
  cbn [fst snd]. destruct Hbad as [Hoff|Hnone|client error r' Hon Hsome Hrej].
  - rewrite Hoff. done.
  - rewrite Hnone. by destruct (enabled self).
  - rewrite Hon, Hsome. apply try_body_rejects in Hrej. by rewrite Hrej.
Qed.

End Shared.


(** The theorem at [N = 2]: three calls in a 1000 ms window, a fourth
    one after it. *)
Lemma burst_admits_quota_then_recovers_witness :
  let config := {| windowMs := 1000; maxRequests := 2 |} in
  let '(results, requests') := burst config [0; 10; 20] "client" ∅ in
  allowed <$> results = [true; true; false] ∧
  allowed (checkLimit config 1020 "client" requests').1 = true.
Proof.
  apply (burst_admits_quota_then_recovers
           {| windowMs := 1000; maxRequests := 2 |} 2 "client" ∅ 0 [10; 20] 1020).
  - reflexivity.
  - lia.
  - reflexivity.
  - repeat constructor; cbn; lia.
  - constructor.
  - repeat constructor; cbn; lia.
Defined.

(** C4 as stated fails on an admitted call: the first request of a key
    is told [remaining = 100] under a quota of 100, with one timestamp
    stored after the decision. *)
Lemma remaining_ignores_appended_timestamp :
  let config := {| windowMs := 60000; maxRequests := 100 |} in
  let '(r, requests') := checkLimit config 1000 "client" ∅ in
  let count_after_decision :=
    Z.of_nat (length (prune (1000 - windowMs config)
                            (default [] (requests' !! "client")))) in
  allowed r = true ∧
  count_after_decision = 1 ∧
  remaining r = 100 ∧
  remaining r ≠ Z.max 0 (maxRequests config - count_after_decision).
Proof. vm_compute. split_and!; congruence. Qed.

(** The invariant after two admitted calls and one denied call. *)
Lemma checkLimit_keeps_window_invariant_witness :
  let config := {| windowMs := 1000; maxRequests := 2 |} in
  let requests := run_ops config [OpCheck 0 "client"; OpCheck 10 "client";
                                  OpCleanup 15] in
  let '(r, requests') := checkLimit config 20 "client" requests in
  ∃ stored,
    requests' !! "client" = Some stored ∧
    Forall (λ ts, 20 - 1000 < ts) stored ∧
    Z.of_nat (length stored) ≤ 2 ∧
    (allowed r = false →
       stored = prune (20 - 1000) (default [] (requests !! "client"))).
Proof.
  apply (checkLimit_keeps_window_invariant
           {| windowMs := 1000; maxRequests := 2 |}
           [OpCheck 0 "client"; OpCheck 10 "client"; OpCleanup 15]
           20 "client"); cbn; lia.
Defined.

(** The fallback when [ZCARD] rejects: the request is admitted by the
    in-memory limiter. *)
Lemma shared_limiter_falls_back_witness :
  redis_checkLimit bool string {| windowMs := 1000; maxRequests := 2 |}
    (λ _, 0) {| enabled := true; redis := Some flaky_client |}
    5 6 "5-0.25" "client" true ∅
  = ((checkLimit {| windowMs := 1000; maxRequests := 2 |} 6 "client" ∅).1,
     false,
     (checkLimit {| windowMs := 1000; maxRequests := 2 |} 6 "client" ∅).2).
Proof.
  apply (shared_limiter_falls_back bool string
           {| windowMs := 1000; maxRequests := 2 |} (λ _, 0)
           {| enabled := true; redis := Some flaky_client |}
           5 6 "5-0.25" "client" true false ∅).
  eapply unusable_rejecting; [reflexivity|reflexivity|].
  eapply rejects_zcard; reflexivity.
Defined.

End RateLimitProofs.

(** ** Circuit breaker *)

Module BreakerProofs.
Import Breaker.

Section Local.

Variable options : CircuitBreakerOptions.

Lemma attempt_recovery_before (now : Z) (cb : CircuitBreaker) :
  now < nextAttemptTime cb → attempt_recovery now cb = cb.
Proof.
  intros Hlt. unfold attempt_recovery.
  rewrite bool_decide_eq_false_2; [done|]. intros [_ ?]. lia.
Qed.

Lemma attempt_recovery_not_open (now : Z) (cb : CircuitBreaker) :
  state cb ≠ Open → attempt_recovery now cb = cb.
Proof.
  intros Hne. unfold attempt_recovery.
  rewrite bool_decide_eq_false_2; [done|]. by intros [? _].
Qed.

(** C1.  While the breaker is Open and the clock is before
    [nextAttemptTime], [execute] throws its circuit-open error, leaves
    the breaker as it was and does not call [fn]: the world and the call
    counter of an instrumented [fn] are unchanged. *)
Theorem open_fails_fast {T X W : Type} (fn : W → settled T X * W)
    (clock : Clock) (cb : CircuitBreaker) (w : W) (calls : nat) :
  state cb = Open →
  at_entry clock < nextAttemptTime cb →
  execute options (counted fn) clock cb (w, calls)
  = (inl CircuitOpenError, cb, (w, calls)).
Proof.
  intros Hopen Hlt. unfold execute.
  rewrite attempt_recovery_before by done. by rewrite Hopen.
Qed.

(** C5, as amended.  For a Closed breaker, a call whose [fn] resolves
    leaves it Closed and resets [failureCount] to zero; a call whose [fn]
    rejects adds one to [failureCount], and the breaker opens exactly
    when the count so reached is at least [failureThreshold], recording
    [nextAttemptTime = now + recoveryTimeout]; otherwise it stays Closed
    with [nextAttemptTime] untouched. *)
Theorem closed_opens_on_consecutive_failures {T X W : Type}
    (fn : W → settled T X * W) (clock : Clock) (cb : CircuitBreaker) (w : W) :
  state cb = Closed →
  let '(_, cb', _) := execute options fn clock cb w in
  match (fn w).1 with
  | Resolved _ => state cb' = Closed ∧ failureCount cb' = 0
  | Rejected _ =>
      failureCount cb' = failureCount cb + 1 ∧
      (state cb' = Open ↔ failureThreshold options ≤ failureCount cb') ∧
      (state cb' = Open →
         nextAttemptTime cb' = at_reopen clock + recoveryTimeout options) ∧
      (state cb' ≠ Open →
         state cb' = Closed ∧ nextAttemptTime cb' = nextAttemptTime cb)
  end.
Proof.
  intros Hclosed. unfold execute.
  rewrite attempt_recovery_not_open by congruence. rewrite Hclosed.
  destruct (fn w) as [[value|error] w']; cbn [fst].
  - unfold onSuccess. rewrite Hclosed. done.
  - unfold onFailure. case_bool_decide as Hle; cbn.
    + split_and!; [done| |done|done]. done.
    + rewrite Hclosed. split_and!; [done| |done|done].
      split; [done|]. intros ?. lia.
Qed.

End Local.

(** An Open breaker called eleven seconds before its next attempt
    time. *)
Lemma open_fails_fast_witness :
  execute {| failureThreshold := 5; recoveryTimeout := 30000;
             monitoringPeriod := 60000 |}
    (counted scripted) (at_time 20000)
    {| state := Open; failureCount := 5; successCount := 0;
       lastFailureTime := 1000; nextAttemptTime := 31000 |}
    ([true], 5%nat)
  = (inl CircuitOpenError,
     {| state := Open; failureCount := 5; successCount := 0;
        lastFailureTime := 1000; nextAttemptTime := 31000 |},
     ([true], 5%nat)).
Proof.
  apply (open_fails_fast
           {| failureThreshold := 5; recoveryTimeout := 30000;
              monitoringPeriod := 60000 |}
           scripted (at_time 20000)
           {| state := Open; failureCount := 5; successCount := 0;
              lastFailureTime := 1000; nextAttemptTime := 31000 |}
           [true] 5%nat).
  - reflexivity.
  - cbn. lia.
Defined.

(** A Closed breaker one failure short of its threshold: the next
    failure opens it. *)
Lemma closed_opens_on_consecutive_failures_witness :
  let options := {| failureThreshold := 5; recoveryTimeout := 30000;
                    monitoringPeriod := 60000 |} in
  let cb := {| state := Closed; failureCount := 4; successCount := 7;
               lastFailureTime := 900; nextAttemptTime := 0 |} in
  let '(_, cb', _) := execute options scripted (at_time 1000) cb [false] in
  match (scripted [false]).1 with
  | Resolved _ => state cb' = Closed ∧ failureCount cb' = 0
  | Rejected _ =>
      failureCount cb' = failureCount cb + 1 ∧
      (state cb' = Open ↔ failureThreshold options ≤ failureCount cb') ∧
      (state cb' = Open →
         nextAttemptTime cb' = at_reopen (at_time 1000) + recoveryTimeout options) ∧
      (state cb' ≠ Open →
         state cb' = Closed ∧ nextAttemptTime cb' = nextAttemptTime cb)
  end.
Proof.
  apply (closed_opens_on_consecutive_failures
           {| failureThreshold := 5; recoveryTimeout := 30000;
              monitoringPeriod := 60000 |}
           scripted (at_time 1000)
           {| state := Closed; failureCount := 4; successCount := 7;
              lastFailureTime := 900; nextAttemptTime := 0 |} [false]).
  reflexivity.
Defined.

(** C5 as stated fails: with a threshold of three, the third failure
    seen while Closed does not open the breaker when a success came in
    between, because that success reset [failureCount]. *)
Lemma success_resets_failure_count :
  let options := {| failureThreshold := 3; recoveryTimeout := 30000;
                    monitoringPeriod := 60000 |} in
  let outcomes := [false; false; true; false] in
  let trace := run_trace options scripted (at_time <$> [1; 2; 3; 4])
                 new_breaker outcomes in
  failures_never_reset outcomes = failureThreshold options ∧
  state <$> trace = [Closed; Closed; Closed; Closed] ∧
  failureCount <$> trace = [1; 2; 0; 1].
Proof. vm_compute. done. Qed.

(** C6 at the failing input.  With the pool's options, five failures
    open the breaker; after the recovery timeout a call goes through
    (HalfOpen) and succeeds; the failure of the following call leaves the
    breaker HalfOpen, with [nextAttemptTime] as it was. *)
Lemma halfopen_failure_after_success_stays_halfopen :
  let options := {| failureThreshold := 5; recoveryTimeout := 30000;
                    monitoringPeriod := 60000 |} in
  let outcomes := [false; false; false; false; false; true; false] in
  let trace := run_trace options scripted
                 (at_time <$> [1; 2; 3; 4; 5; 40000; 40001])
                 new_breaker outcomes in
  state <$> trace
    = [Closed; Closed; Closed; Closed; Open; HalfOpen; HalfOpen] ∧
  failureCount <$> trace = [1; 2; 3; 4; 5; 0; 1] ∧
  nextAttemptTime <$> trace = [0; 0; 0; 0; 30005; 30005; 30005].
Proof. vm_compute. done. Qed.


End BreakerProofs.

(** ** Ingestion pipeline *)

Module IngestProofs.
Import Ingest.

Section Local.

Variable localeCompare : text → text → Z.
Variable parseFloat : text → float.
Variable XlsxError : Type.
Variable xlsx_sheet_toJSON : text → XlsxError + list (list (text * value)).
Variable xlsx_message : XlsxError → text.

(** The validation loop pushes the valid rows and counts the others. *)
Lemma validate_rows_spec (rows : list (gmap text value))
    (validatedRows : list CsvRow) (errorCount : nat) :
  validate_rows rows validatedRows errorCount =
  (validatedRows ++ omap CSV_ROW_SCHEMA_parse rows,
   (errorCount + length (List.filter (λ row, negb (valid row)) rows))%nat).
Proof.
  revert validatedRows errorCount.
  induction rows as [|row rows IH]; intros validatedRows errorCount.
  - cbn. by rewrite app_nil_r, Nat.add_0_r.
  - cbn [validate_rows omap list_omap List.filter]. unfold valid at 1.
    destruct (CSV_ROW_SCHEMA_parse row) as [validated|]; cbn [negb].
    + rewrite IH, <- app_assoc. done.
    + rewrite IH. cbn [length]. f_equal. lia.
Qed.

Lemma omap_parse_length (rows : list (gmap text value)) :
  length (omap CSV_ROW_SCHEMA_parse rows) = length (List.filter valid rows).
Proof.
  induction rows as [|row rows IH]; [done|].
  cbn [omap list_omap List.filter]. unfold valid at 1.
  destruct (CSV_ROW_SCHEMA_parse row); cbn [length]; by rewrite ?IH.
Qed.

Lemma filter_split_length {A} (p : A → bool) (l : list A) :
  length l = (length (List.filter p l)
              + length (List.filter (λ x, negb (p x)) l))%nat.
Proof.
  induction l as [|x l IH]; [done|].
  cbn [List.filter]. destruct (p x); cbn [negb length]; lia.
Qed.

Lemma finish_counts (t : Timings) (rows : list (gmap text value)) :
  counts_of rows (finish localeCompare t rows).
Proof.
  unfold finish, counts_of. rewrite validate_rows_spec. cbn.
  rewrite omap_parse_length. split_and!; try done.
  apply filter_split_length.
Qed.

(** The entry a row creates, and the update it makes to an entry. *)
Lemma add_row_keys (row : CsvRow) (aggregation : list (text * Group)) :
  (add_row row aggregation).*1 =
  if decide (group_key row ∈ aggregation.*1) then aggregation.*1
  else aggregation.*1 ++ [group_key row].
Proof.
  induction aggregation as [|[key existing] aggregation IH]; cbn.
  - rewrite decide_False; [done|]. apply not_elem_of_nil.
  - destruct (decide (key = group_key row)) as [->|Hne]; cbn.
    + rewrite decide_True; [done|]. apply elem_of_cons. by left.
    + rewrite IH. destruct (decide (group_key row ∈ aggregation.*1)) as [Hin|Hout].
      * rewrite decide_True; [done|]. apply elem_of_cons. by right.
      * rewrite decide_False; [done|]. rewrite elem_of_cons.
        intros [?|?]; [congruence|done].
Qed.

Lemma add_row_entries (row : CsvRow) (aggregation : list (text * Group))
    (key : text) (data : Group) :
  NoDup aggregation.*1 →
  (key, data) ∈ add_row row aggregation →
  (key ≠ group_key row ∧ (key, data) ∈ aggregation) ∨
  (key = group_key row ∧
   ((∃ existing, (key, existing) ∈ aggregation ∧
       g_count data = S (g_count existing) ∧
       g_amountSum data = (g_amountSum existing + amount row)%float) ∨
    ((key ∉ aggregation.*1) ∧ g_count data = 1%nat ∧
       g_amountSum data = amount row))).
Proof.
  induction aggregation as [|[key' existing] aggregation IH]; cbn.
  - intros _ [= -> ->]%list_elem_of_singleton. right. split; [done|]. right.
    split_and!; [apply not_elem_of_nil|done|done].
  - intros [Hfresh Hnd]%NoDup_cons.
    destruct (decide (key' = group_key row)) as [->|Hne].
    + intros [[= -> ->]|Hin]%elem_of_cons.
      * right. split; [done|]. left. exists existing.
        split_and!; [apply elem_of_cons; by left|done|done].
      * left. split; [|apply elem_of_cons; by right].
        intros ->. apply Hfresh. apply list_elem_of_fmap.
        by exists (group_key row, data).
    + intros [[= -> ->]|Hin]%elem_of_cons.
      * left. split; [done|]. apply elem_of_cons. by left.
      * destruct (IH Hnd Hin) as [[Hk Hold]|[-> [(old & Hold & Hc & Hs)|(Hout & Hc & Hs)]]].
        -- left. split; [done|]. apply elem_of_cons. by right.
        -- right. split; [done|]. left. exists old.
           split_and!; [apply elem_of_cons; by right|done|done].
        -- right. split; [done|]. right. split_and!; [|done|done].
           rewrite elem_of_cons. intros [?|?]; [congruence|done].
Qed.

Lemma group_rows_snoc (key : text) (rows : list CsvRow) (row : CsvRow) :
  group_rows key (rows ++ [row]) =
  if decide (group_key row = key) then group_rows key rows ++ [row]
  else group_rows key rows.
Proof.
  unfold group_rows. rewrite List.filter_app. cbn [List.filter].
  destruct (decide (group_key row = key)) as [Heq|Hne].
  - by rewrite bool_decide_eq_true_2.
  - rewrite bool_decide_eq_false_2 by done. by rewrite app_nil_r.
Qed.

Lemma group_rows_nil (key : text) (rows : list CsvRow) :
  (∀ row, row ∈ rows → group_key row ≠ key) → group_rows key rows = [].
Proof.
  induction rows as [|row rows IH]; intros Hall; [done|].
  unfold group_rows in *. cbn [List.filter].
  rewrite bool_decide_eq_false_2 by (apply Hall, elem_of_cons; by left).
  apply IH. intros r Hr. apply Hall, elem_of_cons. by right.
Qed.

Lemma sum_amounts_snoc (rows : list CsvRow) (row : CsvRow) :
  rows ≠ [] →
  sum_amounts (rows ++ [row]) = (sum_amounts rows + amount row)%float.
Proof.
  destruct rows as [|first rows]; [done|]. intros _. cbn [sum_amounts app].
  by rewrite foldl_app.
Qed.

(** What the first loop of [aggregateRegionData] has built: one entry
    per key seen, holding the number of rows under the key and their
    unrounded running sum. *)
Lemma aggregation_invariant (rows : list CsvRow) :
  let aggregation := foldl (λ agg row, add_row row agg) [] rows in
  NoDup aggregation.*1 ∧
  (∀ row, row ∈ rows → group_key row ∈ aggregation.*1) ∧
  (∀ key data, (key, data) ∈ aggregation →
     group_rows key rows ≠ [] ∧
     g_count data = length (group_rows key rows) ∧
     g_amountSum data = sum_amounts (group_rows key rows)).
Proof.
  induction rows as [|row rows IH] using rev_ind; cbn zeta.
  - cbn. split_and!; [constructor|by intros ? ?%elem_of_nil|by intros ? ? ?%elem_of_nil].
  - rewrite foldl_app. cbn [foldl].
    set (aggregation := foldl (λ agg row, add_row row agg) [] rows) in *.
    cbn zeta in IH. destruct IH as (Hnd & Hcover & Hdata).
    pose proof (add_row_keys row aggregation) as Hkeys.
    split_and!.
    + rewrite Hkeys. case_decide as Hin; [done|].
      apply NoDup_app. split_and!; [done| |apply NoDup_singleton].
      intros k Hk ->%list_elem_of_singleton. done.
    + intros r [Hr|Hr%list_elem_of_singleton]%elem_of_app;
        [|subst r]; rewrite Hkeys.
      * case_decide; [by apply Hcover|]. apply elem_of_app. left. by apply Hcover.
      * case_decide; [done|]. apply elem_of_app. right. by apply list_elem_of_singleton.
    + intros key data Hin. rewrite group_rows_snoc.
      destruct (add_row_entries row aggregation key data Hnd Hin)
        as [[Hk Hold]|[-> [(old & Hold & Hc & Hs)|(Hout & Hc & Hs)]]].
      * rewrite decide_False by done. by apply Hdata.
      * rewrite decide_True by done.
        destruct (Hdata _ _ Hold) as (Hne & Hcount & Hsum).
        split_and!.
        -- by destruct (group_rows (group_key row) rows).
        -- rewrite length_app. cbn [length]. lia.
        -- rewrite sum_amounts_snoc by done. by rewrite Hs, Hsum.
      * rewrite decide_True by done.
        rewrite group_rows_nil.
        { cbn. done. }
        intros r Hr Heq. apply Hout. rewrite <- Heq. by apply Hcover.
Qed.

Lemma sort_insert_elem (a x : RegionSummary) (sorted : list RegionSummary) :
  x ∈ sort_insert localeCompare a sorted ↔ x = a ∨ x ∈ sorted.
Proof.
  induction sorted as [|b sorted IH]; cbn.
  - rewrite list_elem_of_singleton, elem_of_nil. tauto.
  - case_bool_decide; rewrite !elem_of_cons, ?IH; tauto.
Qed.

Lemma sort_by_region_elem (x : RegionSummary) (l : list RegionSummary) :
  x ∈ sort_by_region localeCompare l ↔ x ∈ l.
Proof.
  induction l as [|a l IH]; cbn; [done|].
  rewrite sort_insert_elem, elem_of_cons. unfold sort_by_region in IH.
  by rewrite IH.
Qed.

(** *** Fields on a line *)





(** [push] below and at the largest length. *)
Lemma push_ok {A : Type} (array : list A) (x : A) :
  Z.of_nat (length array) < max_array_length →
  push array x = inr (array ++ [x]).
Proof.
  intros Hlen. unfold push.
  by rewrite (proj2 (Z.ltb_lt _ _) Hlen).
Qed.

Lemma push_full {A : Type} (array : list A) (x : A) :
  max_array_length ≤ Z.of_nat (length array) →
  push array x = inl (lit "Invalid array length").
Proof.
  intros Hlen. unfold push.
  by rewrite (proj2 (Z.ltb_ge _ _) Hlen).
Qed.



(** A line whose first match is empty keeps [lastIndex] at zero: every
    iteration finds that match again and pushes another empty string,
    until the array is full and [push] throws. *)
Lemma parseLine_loop_stuck (line : text) :
  match_field line = ([], 0%nat) →
  ∀ (fuel : nat) (values : list text),
  Z.of_nat (length values) ≤ max_array_length →
  (∀ result, parseLine_loop fuel line 0 values ≠ Some (inr result)) ∧
  (max_array_length < Z.of_nat fuel + Z.of_nat (length values) →
   parseLine_loop fuel line 0 values
   = Some (inl (lit "Invalid array length"))).
Proof.
  intros Hm. induction fuel as [|fuel IH]; intros values Hlen.
  - split; [done|]. lia.
  - cbn [parseLine_loop]. unfold exec. rewrite Hm.
    destruct (decide (Z.of_nat (length values) < max_array_length))
      as [Hroom|Hfull].
    + rewrite push_ok by done.
      destruct (IH (values ++ [[]])) as [Hnever Hthrows].
      { rewrite length_app. cbn [length]. lia. }
      split; [done|]. intros Hfuel. apply Hthrows.
      rewrite length_app. cbn [length]. lia.
    + rewrite push_full by lia. done.
Qed.

Lemma parseLine_empty_first_match (fuel : nat) (line : text) :
  match_field line = ([], 0%nat) →
  (∀ result, parseLine fuel line ≠ Some (inr result)) ∧
  (max_array_length < Z.of_nat fuel →
   parseLine fuel line = Some (inl (lit "Invalid array length"))).
Proof.
  intros Hm. unfold parseLine.
  destruct (parseLine_loop_stuck line Hm fuel []) as [Hnever Hthrows].
  { cbn. unfold max_array_length. lia. }
  split; [done|]. intros Hfuel. apply Hthrows. cbn [length]. lia.
Qed.

(** The loop ends on every line: each iteration that does not end it
    makes [values] longer. *)
Lemma parseLine_loop_total (line : text) :
  ∀ (fuel lastIndex : nat) (values : list text),
  Z.of_nat (length values) ≤ max_array_length →
  max_array_length + 1 < Z.of_nat fuel + Z.of_nat (length values) →
  ∃ result, parseLine_loop fuel line lastIndex values = Some result.
Proof.
  induction fuel as [|fuel IH]; intros lastIndex values Hlen Hfuel; [lia|].
  cbn [parseLine_loop].
  destruct (exec line lastIndex) as [[v lastIndex']|]; [|by eexists].
  destruct (decide (Z.of_nat (length values) < max_array_length))
    as [Hroom|Hfull].
  - rewrite push_ok by done. apply IH; rewrite length_app; cbn [length]; lia.
  - rewrite push_full by lia. by eexists.
Qed.

Lemma parseLine_total (fuel : nat) (line : text) :
  max_array_length + 1 < Z.of_nat fuel →
  ∃ result, parseLine fuel line = Some result.
Proof.
  intros Hfuel. apply parseLine_loop_total; cbn [length]; [|lia].
  unfold max_array_length. lia.
Qed.


(** *** Lines of a file *)







(** *** Blank text *)

Lemma truthy_trim_start (s : text) :
  truthy (trim_start s) = existsb (λ c, negb (is_space c)) s.
Proof.
  induction s as [|c s IH]; [done|]. cbn. by destruct (is_space c).
Qed.

Lemma existsb_trim_start (s : text) :
  existsb (λ c, negb (is_space c)) (trim_start s)
  = existsb (λ c, negb (is_space c)) s.
Proof.
  induction s as [|c s IH]; [done|]. cbn.
  destruct (is_space c) eqn:Hc; [done|]. cbn. by rewrite Hc.
Qed.

Lemma existsb_rev_text (p : ascii → bool) (s : text) :
  existsb p (rev s) = existsb p s.
Proof.
  induction s as [|c s IH]; [done|].
  cbn [rev existsb]. rewrite existsb_app, IH. cbn. by destruct (p c), (existsb p s).
Qed.

Lemma truthy_rev (s : text) : truthy (rev s) = truthy s.
Proof. destruct s as [|c s]; [done|]. cbn. by destruct (rev s). Qed.

(** A text is truthy after [trim] when it has a character that is not
    white space. *)
Lemma truthy_trim (s : text) :
  truthy (trim s) = existsb (λ c, negb (is_space c)) s.
Proof.
  unfold trim.
  by rewrite truthy_rev, truthy_trim_start, existsb_rev_text, existsb_trim_start.
Qed.




(** *** The character loop of [parseCSVLine] *)






(** *** Numbers *)

(** [Math.round] on halves, next to a half, where the result is a
    zero, and on numbers too large to have a fraction; the counter. *)
Lemma Math_round_samples :
  (Math_round 2.5 = 3 ∧ Math_round (-2.5) = -2 ∧
   Math_round 0.5 = 1 ∧ Math_round (-0.5) = -0 ∧
   Math_round 0.49999999999999994 = 0 ∧ Math_round (-0.2) = -0 ∧
   Math_round 100.49999999999999 = 100 ∧ Math_round 15.5 = 16 ∧
   Math_round 4503599627370495.5 = 4503599627370496 ∧
   Math_round 9007199254740992 = 9007199254740992 ∧
   Math_round infinity = infinity ∧ Math_round nan = nan ∧
   round2 1.005 = 1 ∧ round2 0.155 = 0.16 ∧
   count_number 3 = 3)%float.
Proof. vm_compute. done. Qed.

(** *** Row objects *)

Lemma cell_key (header : text) (raw : option text) :
  (cell parseFloat header raw).1 = normalize_key header.
Proof.
  unfold cell. destruct (_ || _); [|done].
  by destruct (is_nan _).
Qed.

(** A cell is a number only under an amount-like key, and then never
    [NaN]. *)
Lemma cell_number (header : text) (raw : option text) (n : float) :
  (cell parseFloat header raw).2 = VNum n →
  amount_like (normalize_key header) = true ∧ is_nan n = false.
Proof.
  unfold cell, amount_like. destruct (_ || _); [|done].
  destruct (is_nan _) eqn:Hnan; cbn; intros [= <-]; done.
Qed.

Lemma cell_missing (header : text) :
  amount_like (normalize_key header) = false →
  (cell parseFloat header None).2 = VStr [].
Proof. unfold cell, amount_like. by intros ->. Qed.


Lemma make_row_frame (values : list text) (l : list (nat * text)) :
  ∀ (row : gmap text value) (key : text),
  key ∉ (λ entry, normalize_key entry.2) <$> l →
  foldl (λ row '(index, header),
           let '(key, v) := cell parseFloat header (values !! index) in
           set_property key v row) row l !! key = row !! key.
Proof.
  induction l as [|[i h] l IH]; intros row key Hkey; [done|].
  cbn [foldl]. rewrite fmap_cons, not_elem_of_cons in Hkey.
  destruct Hkey as [Hne Hkey]. rewrite IH by done.
  pose proof (cell_key h (values !! i)) as Hk.
  destruct (cell parseFloat h (values !! i)) as [k v]. cbn in Hk, Hne. subst k.
  unfold set_property. case_decide; [done|]. by rewrite lookup_insert_ne.
Qed.

(** No assignment creates a property of the name the prototype
    intercepts. *)
Lemma make_row_proto (values : list text) (l : list (nat * text)) :
  ∀ row : gmap text value,
  foldl (λ row '(index, header),
           let '(key, v) := cell parseFloat header (values !! index) in
           set_property key v row) row l !! lit "__proto__"
  = row !! lit "__proto__".
Proof.
  induction l as [|[i h] l IH]; intros row; [done|].
  cbn [foldl]. rewrite IH.
  destruct (cell parseFloat h (values !! i)) as [k v].
  unfold set_property. case_decide; [done|]. by rewrite lookup_insert_ne.
Qed.

Lemma make_row_hit (values : list text) (l : list (nat * text)) :
  ∀ (row : gmap text value) (i : nat) (header : text),
  NoDup ((λ entry, normalize_key entry.2) <$> l) →
  (i, header) ∈ l →
  normalize_key header ≠ lit "__proto__" →
  foldl (λ row '(index, header),
           let '(key, v) := cell parseFloat header (values !! index) in
           set_property key v row) row l !! normalize_key header
  = Some (cell parseFloat header (values !! i)).2.
Proof.
  induction l as [|[j h] l IH]; intros row i header Hnd Hin Hproto;
    [by apply elem_of_nil in Hin|].
  rewrite fmap_cons in Hnd. apply NoDup_cons in Hnd as [Hfresh Hnd].
  cbn [foldl]. apply elem_of_cons in Hin as [[= -> ->]|Hin].
  - rewrite make_row_frame by done.
    pose proof (cell_key h (values !! j)) as Hk.
    destruct (cell parseFloat h (values !! j)) as [k v]. cbn in Hk |- *.
    subst k. unfold set_property. rewrite decide_False by done.
    by rewrite lookup_insert_eq.
  - by apply IH.
Qed.

Lemma make_row_numbers (values : list text) (l : list (nat * text)) :
  ∀ row : gmap text value,
  map_Forall (λ key v, ∀ n, v = VNum n →
                amount_like key = true ∧ is_nan n = false) row →
  map_Forall (λ key v, ∀ n, v = VNum n →
                amount_like key = true ∧ is_nan n = false)
    (foldl (λ row '(index, header),
              let '(key, v) := cell parseFloat header (values !! index) in
              set_property key v row) row l).
Proof.
  induction l as [|[i h] l IH]; intros row Hrow; [done|].
  cbn [foldl]. apply IH.
  pose proof (cell_key h (values !! i)) as Hk.
  pose proof (cell_number h (values !! i)) as Hn.
  destruct (cell parseFloat h (values !! i)) as [k v]. cbn in Hk, Hn. subst k.
  unfold set_property. case_decide; [done|]. by apply map_Forall_insert_2.
Qed.

Lemma imap_headers (headers : list text) :
  (λ entry : nat * text, normalize_key entry.2)
    <$> imap (λ index header, (index, header)) headers
  = normalize_key <$> headers.
Proof.
  rewrite fmap_imap.
  change (λ n : nat, (λ entry : nat * text, normalize_key entry.2)
                       ∘ (λ header, (n, header)))
    with (λ _ : nat, normalize_key).
  apply (imap_const normalize_key).
Qed.

(** The row object of a line: under a header whose normalised name no
    other header shares, the cell at the header's position. *)
Lemma make_row_lookup (headers values : list text) (i : nat) (header : text) :
  NoDup (normalize_key <$> headers) →
  headers !! i = Some header →
  normalize_key header ≠ lit "__proto__" →
  make_row parseFloat headers values !! normalize_key header
  = Some (cell parseFloat header (values !! i)).2.
Proof.
  intros Hnd Hi Hproto. unfold make_row. apply make_row_hit.
  - by rewrite imap_headers.
  - by apply (elem_of_lookup_imap_2 (λ index header, (index, header))).
  - done.
Qed.

(** *** Files of rendered lines *)



Lemma filter_nonblank_rendered (lines : list (list field)) :
  List.filter (λ line, truthy (trim line)) (map render_line lines)
  = List.filter (λ line, truthy (trim line))
      (map render_line (List.filter (λ fields, truthy (trim (render_line fields))) lines)).
Proof.
  induction lines as [|fields lines IH]; [done|].
  cbn [map List.filter].
  destruct (truthy (trim (render_line fields))) eqn:Hline.
  - cbn [map List.filter]. by rewrite Hline, IH.
  - done.
Qed.



(** C2.  Whenever [processCsvFile] or [processExcelFile] returns a
    result, [rowCount] is the number of parsed rows, [successCount] the
    number of those passing schema validation, [errorCount] the number
    failing it, and [rowCount = successCount + errorCount]. *)
Theorem counts_partition_rows (fuel : nat) (t : Timings) (buffer : text)
    (res : ParseResult) :
  (processCsvFile localeCompare parseFloat fuel t buffer = Some (inr res) →
   ∃ headers rows,
     parseCSVWithRegex parseFloat fuel buffer = Some (inr (headers, rows)) ∧
     counts_of rows res) ∧
  (processExcelFile localeCompare XlsxError xlsx_sheet_toJSON xlsx_message
     t buffer = inr res →
   ∃ rawData,
     xlsx_sheet_toJSON buffer = inr rawData ∧
     counts_of (map normalize_row rawData) res).
Proof.
  split.
  - unfold processCsvFile.
    destruct (parseCSVWithRegex parseFloat fuel buffer)
      as [[message|[headers rows]]|]; cbn; try done.
    intros [= <-]. exists headers, rows. split; [done|]. apply finish_counts.
  - unfold processExcelFile.
    destruct (xlsx_sheet_toJSON buffer) as [error|rawData]; [done|].
    intros [= <-]. exists rawData. split; [done|]. apply finish_counts.
Qed.

Lemma aggregateRegionData_summary (rows : list CsvRow) (s : RegionSummary) :
  s ∈ aggregateRegionData localeCompare rows → summary_of rows s.
Proof.
  unfold aggregateRegionData. rewrite sort_by_region_elem.
  intros Hin%list_elem_of_In. apply in_map_iff in Hin as ([key data] & <- & Hin).
  apply list_elem_of_In in Hin.
  destruct (aggregation_invariant rows) as (_ & _ & Hdata).
  destruct (Hdata key data Hin) as (Hne & Hcount & Hsum).
  exists key. cbn zeta. unfold summarize. cbn.
  by rewrite Hsum, Hcount.
Qed.

Lemma finish_summaries (t : Timings) (rows : list (gmap text value)) :
  summaries (finish localeCompare t rows)
  = aggregateRegionData localeCompare (omap CSV_ROW_SCHEMA_parse rows).
Proof. unfold finish. by rewrite validate_rows_spec. Qed.

(** C7, as amended.  Every summary returned by [aggregateRegionData],
    and so every summary of a result of [processCsvFile] or
    [processExcelFile], where the rows aggregated are the parsed rows
    that pass the schema, stands for the rows under one aggregation
    key: [count] is their number, [amountSum] their running sum, added
    up in input order and rounded to two decimals at the end, and
    [amountAvg] that unrounded sum divided by [count] and then rounded,
    not the rounded [amountSum] divided by [count]. *)
Theorem summary_average_from_unrounded_sum
    (validated : list CsvRow) (fuel : nat) (t : Timings) (buffer : text)
    (res : ParseResult) (s : RegionSummary) :
  (s ∈ aggregateRegionData localeCompare validated →
   summary_of validated s) ∧
  (processCsvFile localeCompare parseFloat fuel t buffer = Some (inr res) →
   s ∈ summaries res →
   ∃ headers rows,
     parseCSVWithRegex parseFloat fuel buffer = Some (inr (headers, rows)) ∧
     summary_of (omap CSV_ROW_SCHEMA_parse rows) s) ∧
  (processExcelFile localeCompare XlsxError xlsx_sheet_toJSON xlsx_message
     t buffer = inr res →
   s ∈ summaries res →
   ∃ rawData,
     xlsx_sheet_toJSON buffer = inr rawData ∧
     summary_of (omap CSV_ROW_SCHEMA_parse (map normalize_row rawData)) s).
Proof.
  split_and!.
  - apply aggregateRegionData_summary.
  - unfold processCsvFile.
    destruct (parseCSVWithRegex parseFloat fuel buffer)
      as [[message|[headers rows]]|]; cbn; try done.
    intros [= <-] Hin. exists headers, rows. split; [done|].
    rewrite finish_summaries in Hin. by apply aggregateRegionData_summary.
  - unfold processExcelFile.
    destruct (xlsx_sheet_toJSON buffer) as [error|rawData]; [done|].
    intros [= <-] Hin. exists rawData. split; [done|].
    rewrite finish_summaries in Hin. by apply aggregateRegionData_summary.
Qed.




End Local.

(** The scenario returns, with three rows, two valid and one not. *)
Lemma counts_partition_rows_witness :
  ∃ res,
    processCsvFile compare_codes parse_decimal 10
      (Build_Timings 0 1 2 3 4 5 6 7) sample = Some (inr res) ∧
    rowCount res = 3%nat ∧ successCount res = 2%nat ∧ errorCount res = 1%nat ∧
    ∃ headers rows,
      parseCSVWithRegex parse_decimal 10 sample = Some (inr (headers, rows)) ∧
      counts_of rows res.
Proof.
  eexists. split; [vm_compute; reflexivity|].
  split_and!; [reflexivity..|].
  refine (proj1 (counts_partition_rows compare_codes parse_decimal
                   Empty_set (λ _, inr []) (λ e, match e with end)
                   10 (Build_Timings 0 1 2 3 4 5 6 7) sample _) _).
  vm_compute. reflexivity.
Defined.

(** C7 as stated fails.  A file with two rows of one group, amounts
    0.014 and 0.015, gives [amountSum = 0.03] and [amountAvg = 0.01],
    while the returned sum divided by the count rounds to 0.02.  It
    fails for a group of one row too: rounding to two decimals is not
    idempotent, and the amount 38820800498784.195 gives an average
    ending in .2 where the returned sum divided by one rounds to .21. *)
Lemma average_is_not_rounded_sum_over_count :
  let file amounts :=
    lit "region,country,amount"
    ++ flat_map (λ a, "010"%char :: lit "EU,DE," ++ lit a) amounts in
  let run amounts :=
    processCsvFile compare_codes parse_decimal 30
      (Build_Timings 0 1 2 3 4 5 6 7) (file amounts) in
  (∃ res s,
     run ["0.014"; "0.015"]%string = Some (inr res) ∧
     summaries res = [s] ∧
     s_count s = 2%nat ∧
     amountSum s = 0.03%float ∧
     amountAvg s = 0.01%float ∧
     round2 (amountSum s / count_number (s_count s)) = 0.02%float ∧
     (amountAvg s =? round2 (amountSum s / count_number (s_count s)))%float
     = false) ∧
  (∃ res s,
     run ["38820800498784.195"%string] = Some (inr res) ∧
     summaries res = [s] ∧
     s_count s = 1%nat ∧
     parse_decimal (lit "38820800498784.195") = 38820800498784.195%float ∧
     amountSum s = 38820800498784.203%float ∧
     amountAvg s = 38820800498784.203%float ∧
     round2 (amountSum s / count_number (s_count s))
     = 38820800498784.211%float ∧
     (amountAvg s =? round2 (amountSum s / count_number (s_count s)))%float
     = false).
Proof.
  split; (do 2 eexists; split; [vm_compute; reflexivity|]);
    split_and!; vm_compute; reflexivity.
Qed.

(** A file with a group of two rows, 100.125 and 50.5 under EU/DE. *)
Lemma summary_average_from_unrounded_sum_witness :
  let buffer :=
    lit "region,country,amount" ++ ["010"%char] ++
    lit "EU,DE,100.125" ++ ["010"%char] ++ lit "EU,DE,50.5" in
  ∃ res s,
    processCsvFile compare_codes parse_decimal 30
      (Build_Timings 0 1 2 3 4 5 6 7) buffer = Some (inr res) ∧
    summaries res = [s] ∧
    amountSum s = 150.63%float ∧ amountAvg s = 75.31%float ∧
    ∃ headers rows,
      parseCSVWithRegex parse_decimal 30 buffer = Some (inr (headers, rows)) ∧
      summary_of (omap CSV_ROW_SCHEMA_parse rows) s.
Proof.
  intros buffer. do 2 eexists.
  split; [vm_compute; reflexivity|].
  split; [reflexivity|]. split; [vm_compute; reflexivity|].
  split; [vm_compute; reflexivity|].
  refine (proj1 (proj2 (summary_average_from_unrounded_sum compare_codes
                          parse_decimal Empty_set (λ _, inr [])
                          (λ e, match e with end)
                          [] 30 (Build_Timings 0 1 2 3 4 5 6 7) buffer _ _))
            _ _).
  - vm_compute. reflexivity.
  - apply list_elem_of_here.
Defined.





End IngestProofs.

(** ** Rate limiter: further properties *)

Module RateLimitMore.
Import RateLimit RateLimitProofs.

Section Local.

Variable config : RateLimitConfig.

Lemma prune_prune (a b : Z) (l : list Z) :
  a ≤ b → prune b (prune a l) = prune b l.
Proof.
  intros Hab. unfold prune. induction l as [|ts l IH]; [done|].
  destruct (decide (a < ts)) as [Ha|Ha].
  - rewrite (filter_cons_True (λ ts, a < ts)) by done.
    destruct (decide (b < ts)) as [Hb|Hb].
    + rewrite !(filter_cons_True (λ ts, b < ts)) by done. by rewrite IH.
    + rewrite !(filter_cons_False (λ ts, b < ts)) by done. done.
  - rewrite (filter_cons_False (λ ts, a < ts)) by done.
    rewrite (filter_cons_False (λ ts, b < ts)) by lia. done.
Qed.

(** The whole result of [checkLimit], from the list stored for the key. *)
Lemma checkLimit_result (now : Z) (key : string)
    (requests : gmap string (list Z)) :
  let pruned := prune (now - windowMs config) (default [] (requests !! key)) in
  let stored := if bool_decide (Z.of_nat (length pruned) < maxRequests config)
                then pruned ++ [now] else pruned in
  checkLimit config now key requests =
  ({| allowed := bool_decide (Z.of_nat (length pruned) < maxRequests config);
      remaining := Z.max 0 (maxRequests config - Z.of_nat (length pruned));
      resetTime := match stored with
                   | oldest :: _ => oldest + windowMs config
                   | [] => now + windowMs config
                   end |},
   <[key := stored]> requests).
Proof. done. Qed.

(** X1.  Keys are independent: a check for one key leaves the list of
    every other key as it was, and its result depends on the map only
    through the list stored for its own key. *)
Theorem checkLimit_key_isolation (now : Z) (key other : string)
    (requests requests' : gmap string (list Z)) :
  key ≠ other →
  requests !! key = requests' !! key →
  (checkLimit config now key requests).2 !! other = requests !! other ∧
  (checkLimit config now key requests).1 = (checkLimit config now key requests').1 ∧
  (checkLimit config now key requests).2 !! key
    = (checkLimit config now key requests').2 !! key.
Proof.
  intros Hne Heq. rewrite !checkLimit_result. cbn [fst snd].
  rewrite lookup_insert_ne by done. rewrite !lookup_insert_eq, Heq. done.
Qed.

(** X2.  The periodic sweep is invisible to the limiter's answers: a
    check made at or after the time of a sweep gives the same result,
    and stores the same list for its key, as if the sweep had not run. *)
Theorem cleanup_is_transparent (sweep now : Z) (key : string)
    (requests : gmap string (list Z)) :
  sweep ≤ now →
  (checkLimit config now key (cleanup config sweep requests)).1
    = (checkLimit config now key requests).1 ∧
  (checkLimit config now key (cleanup config sweep requests)).2 !! key
    = (checkLimit config now key requests).2 !! key.
Proof.
  intros Hle.
  assert (prune (now - windowMs config)
            (default [] (cleanup config sweep requests !! key))
          = prune (now - windowMs config) (default [] (requests !! key)))
    as Hsame.
  { unfold cleanup. rewrite lookup_omap.
    destruct (requests !! key) as [l|]; cbn -[prune]; [|done].
    destruct (prune (sweep - windowMs config) l) as [|ts l'] eqn:Hp;
      cbn -[prune].
    - rewrite <- (prune_prune (sweep - windowMs config)
                    (now - windowMs config) l) by lia.
      by rewrite Hp.
    - rewrite <- Hp. apply prune_prune. lia. }
  rewrite !checkLimit_result. cbn [fst snd]. rewrite !lookup_insert_eq.
  by rewrite Hsame.
Qed.

(** X3.  After a sweep every entry left in the map is non-empty, holds
    only timestamps inside the window, and is the pruned version of the
    entry that was there; the map has not grown. *)
Theorem cleanup_leaves_live_entries (now : Z) (requests : gmap string (list Z))
    (key : string) (timestamps : list Z) :
  cleanup config now requests !! key = Some timestamps →
  timestamps ≠ [] ∧
  Forall (λ ts, now - windowMs config < ts) timestamps ∧
  (∃ before, requests !! key = Some before ∧
             timestamps = prune (now - windowMs config) before) ∧
  (size (cleanup config now requests) ≤ size requests)%nat.
Proof.
  unfold cleanup. rewrite lookup_omap.
  destruct (requests !! key) as [l|] eqn:Hl; cbn; [|done].
  destruct (prune (now - windowMs config) l) as [|ts l'] eqn:Hp; [done|].
  intros [= <-]. split_and!; [done| | |].
  - rewrite <- Hp. apply prune_spec.
  - by exists l.
  - rewrite <- !(size_dom (D := gset string)).
    apply subseteq_size, dom_omap_subseteq.
Qed.

(** X4.  After [reset(key)] the next check for the key starts from an
    empty list: it is admitted exactly when the quota is positive, it
    reports the full quota as remaining, and its reset time is one
    window ahead. *)
Theorem reset_then_checkLimit (now : Z) (key : string)
    (requests : gmap string (list Z)) :
  (checkLimit config now key (reset key requests)).1 =
  {| allowed := bool_decide (0 < maxRequests config);
     remaining := Z.max 0 (maxRequests config);
     resetTime := now + windowMs config |}.
Proof.
  rewrite checkLimit_result. cbn [fst]. unfold reset.
  rewrite lookup_delete_eq. cbn. rewrite Z.sub_0_r.
  change (Z.of_nat 0) with 0. by destruct (bool_decide (0 < maxRequests config)).
Qed.

(** X5.  With a positive window the reset time of every result lies in
    the future, whatever is stored; when no stored timestamp of the key
    is ahead of the clock it is at most one window away. *)
Theorem resetTime_within_one_window (now : Z) (key : string)
    (requests : gmap string (list Z)) :
  (0 < windowMs config →
   now < resetTime (checkLimit config now key requests).1) ∧
  (Forall (λ ts, ts ≤ now) (default [] (requests !! key)) →
   resetTime (checkLimit config now key requests).1 ≤ now + windowMs config).
Proof.
  rewrite checkLimit_result. cbn [fst resetTime].
  pose proof (prune_spec (now - windowMs config)
                (default [] (requests !! key))) as Hlive.
  split.
  - intros Hwin.
    destruct (prune (now - windowMs config) (default [] (requests !! key)))
      as [|oldest l].
    + case_bool_decide; cbn; lia.
    + apply Forall_cons in Hlive as [Hlive _]. case_bool_decide; cbn; lia.
  - intros Hpast.
    assert (Forall (λ ts, ts ≤ now)
              (prune (now - windowMs config) (default [] (requests !! key))))
      as Hold.
    { unfold prune. rewrite Forall_forall in Hpast. apply Forall_forall.
      intros ts [_ Hin]%list_elem_of_filter. by apply Hpast. }
    destruct (prune (now - windowMs config) (default [] (requests !! key)))
      as [|oldest l].
    + case_bool_decide; cbn; lia.
    + apply Forall_cons in Hold as [Hold _]. case_bool_decide; cbn; lia.
Qed.

(** X6.  Two checks in a row for one key, the second one before anything
    the first one kept has left the window: the second [remaining] is
    the first one, less one if the first call was admitted. *)
Theorem remaining_steps_down (t1 t2 : Z) (key : string)
    (requests : gmap string (list Z)) :
  t2 - windowMs config < t1 →
  Forall (λ ts, t1 - windowMs config < ts → t2 - windowMs config < ts)
         (default [] (requests !! key)) →
  let '(r1, requests1) := checkLimit config t1 key requests in
  let '(r2, _) := checkLimit config t2 key requests1 in
  remaining r2 = remaining r1 - (if allowed r1 then 1 else 0).
Proof.
  intros Ht1 Hkeep. rewrite checkLimit_result.
  set (pruned := prune (t1 - windowMs config) (default [] (requests !! key))).
  assert (Forall (λ ts, t2 - windowMs config < ts) pruned) as Hlive.
  { unfold pruned, prune. apply Forall_forall.
    intros ts [Hts Hin]%list_elem_of_filter.
    rewrite Forall_forall in Hkeep. by apply Hkeep. }
  rewrite checkLimit_result. cbn [fst snd remaining allowed].
  rewrite lookup_insert_eq. cbn [default from_option id].
  case_bool_decide as Hlt.
  - rewrite prune_live by (apply Forall_app; split; [done|by apply Forall_singleton]).
    rewrite length_app. cbn [length]. lia.
  - rewrite prune_live by done. lia.
Qed.

(** The summed lengths of the lists of a map whose lists hold at most
    [n] timestamps each. *)
Lemma totalRequests_bounded (n : nat) (requests : gmap string (list Z)) :
  map_Forall (λ _ timestamps, (length timestamps ≤ n)%nat) requests →
  (totalRequests (getStats requests) ≤ totalKeys (getStats requests) * n)%nat.
Proof.
  unfold getStats. cbn [totalRequests totalKeys].
  induction requests as [|key timestamps requests Hkey Hfold IH]
    using map_first_key_ind.
  - intros _. by rewrite map_fold_empty, map_size_empty.
  - intros [Hts Hrest]%map_Forall_insert; [|done].
    rewrite map_fold_insert_first_key by done.
    rewrite map_size_insert_None by done. specialize (IH Hrest). lia.
Qed.

(** X7.  [getStats] of a limiter with a non-negative quota never reports
    more tracked requests than the quota times the number of keys. *)
Theorem getStats_within_quota (ops : list op) :
  0 ≤ maxRequests config →
  Z.of_nat (totalRequests (getStats (run_ops config ops)))
  ≤ Z.of_nat (totalKeys (getStats (run_ops config ops))) * maxRequests config.
Proof.
  intros Hmax.
  pose proof (totalRequests_bounded (Z.to_nat (maxRequests config))
                (run_ops config ops)) as Hbound.
  assert (map_Forall (λ _ timestamps,
                        (length timestamps ≤ Z.to_nat (maxRequests config))%nat)
            (run_ops config ops)) as Hall.
  { intros k l Hk. pose proof (run_ops_bounded config ops Hmax k l Hk). lia. }
  specialize (Hbound Hall). nia.
Qed.

End Local.

(** X25.  The quota of a route is advertised, not enforced.  The
    handler of [rateLimitMiddleware(options)] asks the global limiter,
    which was built with [RATE_LIMIT_CONFIG]: a request for a key that
    already holds [options.maxRequests] live timestamps is still passed
    on when the global quota is larger, under a limit header of
    [options.maxRequests] and a remaining header counted from the
    global quota. *)
Theorem route_quota_is_not_enforced (global : RateLimitConfig)
    (options : Options) (quota : Z) (key : string) (now now_reply : Z)
    (requests : gmap string (list Z)) (stored : list Z) :
  o_maxRequests options = Some quota →
  requests !! key = Some stored →
  Forall (λ ts, now - windowMs global < ts) stored →
  Z.of_nat (length stored) = quota →
  quota < maxRequests global →
  let '(reply, requests') :=
    rateLimitMiddleware global options key now now_reply requests in
  outcome reply = Next ∧
  limit_header reply = quota ∧
  remaining_header reply = maxRequests global - quota ∧
  requests' !! key = Some (stored ++ [now]).
Proof.
  intros Hquota Hstored Hlive Hlen Hlt. unfold rateLimitMiddleware.
  rewrite checkLimit_result, Hstored, Hquota. cbn [default from_option id].
  rewrite prune_live by done. rewrite Hlen.
  rewrite bool_decide_eq_true_2 by done. cbn.
  rewrite lookup_insert_eq. split_and!; [done|done|lia|done].
Qed.


(** Sample runs of the theorems above, on a limiter with a window of one
    second and a quota of two. *)

Lemma checkLimit_key_isolation_witness :
  let config := {| windowMs := 1000; maxRequests := 2 |} in
  let requests : gmap string (list Z) := {[ "a"%string := [5]; "b"%string := [7] ]} in
  let requests' : gmap string (list Z) := {[ "a"%string := [5] ]} in
  (checkLimit config 10 "a" requests).2 !! "b"%string = requests !! "b"%string ∧
  (checkLimit config 10 "a" requests).1 = (checkLimit config 10 "a" requests').1 ∧
  (checkLimit config 10 "a" requests).2 !! "a"%string
    = (checkLimit config 10 "a" requests').2 !! "a"%string.
Proof.
  apply (checkLimit_key_isolation {| windowMs := 1000; maxRequests := 2 |}
           10 "a" "b" {[ "a"%string := [5]; "b"%string := [7] ]}
           {[ "a"%string := [5] ]}).
  - discriminate.
  - reflexivity.
Defined.

Lemma cleanup_is_transparent_witness :
  let config := {| windowMs := 1000; maxRequests := 2 |} in
  let requests : gmap string (list Z) := {[ "a"%string := [5; 900] ]} in
  (checkLimit config 1500 "a" (cleanup config 1200 requests)).1
    = (checkLimit config 1500 "a" requests).1 ∧
  (checkLimit config 1500 "a" (cleanup config 1200 requests)).2 !! "a"%string
    = (checkLimit config 1500 "a" requests).2 !! "a"%string.
Proof.
  apply (cleanup_is_transparent {| windowMs := 1000; maxRequests := 2 |}
           1200 1500 "a" {[ "a"%string := [5; 900] ]}).
  lia.
Defined.

Lemma cleanup_leaves_live_entries_witness :
  let config := {| windowMs := 1000; maxRequests := 2 |} in
  let requests : gmap string (list Z) :=
    {[ "a"%string := [5; 900]; "b"%string := [7] ]} in
  [900] ≠ [] ∧
  Forall (λ ts, 1200 - windowMs config < ts) [900] ∧
  (∃ before, requests !! "a"%string = Some before ∧
             [900] = prune (1200 - windowMs config) before) ∧
  (size (cleanup config 1200 requests) ≤ size requests)%nat.
Proof.
  apply (cleanup_leaves_live_entries {| windowMs := 1000; maxRequests := 2 |}
           1200 {[ "a"%string := [5; 900]; "b"%string := [7] ]} "a" [900]).
  vm_compute. reflexivity.
Defined.

Lemma resetTime_within_one_window_witness :
  let config := {| windowMs := 1000; maxRequests := 2 |} in
  let ahead : gmap string (list Z) := {[ "a"%string := [5; 900; 1700] ]} in
  let requests : gmap string (list Z) := {[ "a"%string := [5; 900] ]} in
  1500 < resetTime (checkLimit config 1500 "a" ahead).1 ∧
  resetTime (checkLimit config 1500 "a" requests).1 ≤ 1500 + windowMs config.
Proof.
  split.
  - apply (resetTime_within_one_window {| windowMs := 1000; maxRequests := 2 |}
             1500 "a" {[ "a"%string := [5; 900; 1700] ]}).
    cbn. lia.
  - apply (resetTime_within_one_window {| windowMs := 1000; maxRequests := 2 |}
             1500 "a" {[ "a"%string := [5; 900] ]}).
    vm_compute. repeat constructor; discriminate.
Defined.

Lemma remaining_steps_down_witness :
  let config := {| windowMs := 1000; maxRequests := 2 |} in
  let requests : gmap string (list Z) := {[ "a"%string := [5; 900] ]} in
  let '(r1, requests1) := checkLimit config 1500 "a" requests in
  let '(r2, _) := checkLimit config 1600 "a" requests1 in
  remaining r2 = remaining r1 - (if allowed r1 then 1 else 0).
Proof.
  apply (remaining_steps_down {| windowMs := 1000; maxRequests := 2 |}
           1500 1600 "a" {[ "a"%string := [5; 900] ]}).
  - cbn. lia.
  - vm_compute. repeat constructor; intros; try discriminate; reflexivity.
Defined.

Lemma getStats_within_quota_witness :
  let config := {| windowMs := 1000; maxRequests := 2 |} in
  let ops := [OpCheck 0 "a"; OpCheck 1 "a"; OpCheck 2 "a"; OpCheck 3 "b"] in
  Z.of_nat (totalRequests (getStats (run_ops config ops)))
  ≤ Z.of_nat (totalKeys (getStats (run_ops config ops))) * maxRequests config.
Proof.
  apply (getStats_within_quota {| windowMs := 1000; maxRequests := 2 |}
           [OpCheck 0 "a"; OpCheck 1 "a"; OpCheck 2 "a"; OpCheck 3 "b"]).
  cbn. lia.
Defined.

Lemma route_quota_is_not_enforced_witness :
  let global := {| windowMs := 60000; maxRequests := 100 |} in
  let options := {| o_maxRequests := Some 2; o_windowMs := Some 60000 |} in
  let requests : gmap string (list Z) := {[ "ip:10.0.0.1"%string := [5; 900] ]} in
  let '(reply, requests') :=
    rateLimitMiddleware global options "ip:10.0.0.1" 1500 1501 requests in
  outcome reply = Next ∧
  limit_header reply = 2 ∧
  remaining_header reply = maxRequests global - 2 ∧
  requests' !! "ip:10.0.0.1"%string = Some ([5; 900] ++ [1500]).
Proof.
  apply (route_quota_is_not_enforced
           {| windowMs := 60000; maxRequests := 100 |}
           {| o_maxRequests := Some 2; o_windowMs := Some 60000 |}
           2 "ip:10.0.0.1" 1500 1501
           {[ "ip:10.0.0.1"%string := [5; 900] ]} [5; 900]).
  - reflexivity.
  - reflexivity.
  - repeat constructor; cbn; lia.
  - reflexivity.
  - cbn. lia.
Defined.

End RateLimitMore.

(** ** Circuit breaker: further properties *)

Module BreakerMore.
Import Breaker BreakerProofs.

Section Local.

Variable options : CircuitBreakerOptions.

(** After the guard of [execute] the breaker is Open only if it was
    Open before its next attempt time. *)
Lemma attempt_recovery_open (now : Z) (cb : CircuitBreaker) :
  state (attempt_recovery now cb) = Open →
  state cb = Open ∧ now < nextAttemptTime cb ∧ attempt_recovery now cb = cb.
Proof.
  unfold attempt_recovery. case_bool_decide as Hrec; [done|].
  intros Hopen. split_and!; [done| |done].
  destruct (decide (now < nextAttemptTime cb)); [done|].
  exfalso. apply Hrec. split; [done|lia].
Qed.

(** X8.  Unless the breaker is Open and the clock is before
    [nextAttemptTime], [execute] calls [fn] exactly once and returns its
    value or throws its error unchanged. *)
Theorem execute_passes_outcome {T X W : Type} (fn : W → settled T X * W)
    (clock : Clock) (cb : CircuitBreaker) (w : W) (calls : nat) :
  ¬ (state cb = Open ∧ at_entry clock < nextAttemptTime cb) →
  let '(result, _, world) := execute options (counted fn) clock cb (w, calls) in
  result = passed (fn w).1 ∧ world = ((fn w).2, S calls).
Proof.
  intros Hpass. unfold execute.
  destruct (state (attempt_recovery (at_entry clock) cb)) eqn:Hstate;
    try (unfold counted; by destruct (fn w) as [[value|error] w']).
  apply attempt_recovery_open in Hstate as (Hopen & Hlt & _).
  exfalso. by apply Hpass.
Qed.

(** A call that is let through and resolves. *)
Lemma execute_resolved {T X W : Type} (fn : W → settled T X * W)
    (clock : Clock) (cb : CircuitBreaker) (w w' : W) (value : T) :
  fn w = (Resolved value, w') →
  ¬ (state cb = Open ∧ at_entry clock < nextAttemptTime cb) →
  execute options fn clock cb w
  = (inr value, onSuccess (attempt_recovery (at_entry clock) cb), w').
Proof.
  intros Hfn Hpass. unfold execute.
  destruct (state (attempt_recovery (at_entry clock) cb)) eqn:Hstate;
    rewrite ?Hfn; try done.
  apply attempt_recovery_open in Hstate as (Hopen & Hlt & _).
  exfalso. by apply Hpass.
Qed.

(** X9.  Recovery: an Open breaker called once its next attempt time has
    come lets the call through as HalfOpen, and three calls in a row
    that succeed close it; it is still HalfOpen after the first two. *)
Theorem three_successes_close {T X W : Type} (fn : W → settled T X * W)
    (c1 c2 c3 : Clock) (cb : CircuitBreaker)
    (w w1 w2 w3 : W) (v1 v2 v3 : T) :
  state cb = Open →
  nextAttemptTime cb ≤ at_entry c1 →
  fn w = (Resolved v1, w1) →
  fn w1 = (Resolved v2, w2) →
  fn w2 = (Resolved v3, w3) →
  state <$> run_trace options fn [c1; c2; c3] cb w
    = [HalfOpen; HalfOpen; Closed] ∧
  successCount <$> run_trace options fn [c1; c2; c3] cb w = [1; 2; 3] ∧
  failureCount <$> run_trace options fn [c1; c2; c3] cb w = [0; 0; 0].
Proof.
  intros Hopen Hdue H1 H2 H3.
  destruct cb as [st failures successes lastFailure nextAttempt].
  cbn [state nextAttemptTime] in Hopen, Hdue. subst st.
  cbn [run_trace].
  rewrite (execute_resolved fn c1 _ w w1 v1) by (done || (cbn; lia)).
  assert (onSuccess (attempt_recovery (at_entry c1)
            {| state := Open; failureCount := failures;
               successCount := successes; lastFailureTime := lastFailure;
               nextAttemptTime := nextAttempt |})
          = {| state := HalfOpen; failureCount := 0; successCount := 1;
               lastFailureTime := lastFailure;
               nextAttemptTime := nextAttempt |}) as ->.
  { unfold attempt_recovery. cbn [state nextAttemptTime].
    by rewrite bool_decide_eq_true_2. }
  rewrite (execute_resolved fn c2 _ w1 w2 v2) by (done || (cbn; intros [? _]; done)).
  rewrite (execute_resolved fn c3 _ w2 w3 v3) by (done || (cbn; intros [? _]; done)).
  done.
Qed.

(** X10.  A trial call that fails.  On an Open breaker whose next
    attempt time has passed, a call whose [fn] rejects throws that error
    and records the failure; the guard leaves [failureCount] as earlier
    calls left it, so the breaker re-opens, with
    [nextAttemptTime = now + recoveryTimeout], exactly when
    [failureCount + 1] reaches the threshold, and is left HalfOpen with
    its old [nextAttemptTime] otherwise. *)
Theorem trial_failure_reopens {T X W : Type} (fn : W → settled T X * W)
    (clock : Clock) (cb : CircuitBreaker) (w w' : W) (error : X) :
  state cb = Open →
  nextAttemptTime cb ≤ at_entry clock →
  fn w = (Rejected error, w') →
  ∃ cb',
    execute options fn clock cb w = (inl (FnError error), cb', w') ∧
    lastFailureTime cb' = at_failure clock ∧
    failureCount cb' = failureCount cb + 1 ∧
    successCount cb' = 0 ∧
    if bool_decide (failureThreshold options ≤ failureCount cb + 1)
    then state cb' = Open ∧
         nextAttemptTime cb' = at_reopen clock + recoveryTimeout options
    else state cb' = HalfOpen ∧ nextAttemptTime cb' = nextAttemptTime cb.
Proof.
  intros Hopen Hdue Hfn.
  unfold execute, attempt_recovery.
  rewrite bool_decide_eq_true_2 by done. cbn [state]. rewrite Hfn.
  eexists. split; [reflexivity|].
  unfold onFailure. cbn [failureCount].
  by case_bool_decide.
Qed.

End Local.

Section Pool.

Variables Channel Client : Type.
Variable newChannel : string → Channel.
Variable newClient : string → Client.
Variables T X W : Type.
Variable rpc : Client → W → settled T X * W.

(** X11.  What [processFile] does for a target that has a stored
    connection depends on the [getState] method of its channel.  When
    the channel object has no such method the call throws a [TypeError]
    before the breaker and the remote call are reached, and pool and
    world stay as they were.  When the state is READY the call goes
    through the stored breaker.  In every other state the connection is
    replaced together with its breaker: whatever state the old breaker
    was in, the remote call is made, and the breaker stored afterwards
    is a new one that has seen this one call, so it is Closed. *)
Theorem processFile_on_stored_connection
    (getState : Channel → option connectivityState) (now_created now : Z)
    (clock : Clock) (target : string)
    (connections : gmap string (ClientConnection Channel Client))
    (connection : ClientConnection Channel Client) (w : W) :
  connections !! target = Some connection →
  let run :=
    processFile Channel Client newChannel newClient T X W rpc
      getState now_created now clock target connections w in
  match getState (channel connection) with
  | None => run = (inl NotAFunction, connections, w)
  | Some READY =>
      let '(result, cb, w') :=
        execute pool_options (rpc (client connection)) clock
          (circuitBreaker connection) w in
      run.1.1 = inr result ∧ run.2 = w' ∧
      circuitBreaker <$> run.1.2 !! target = Some cb
  | Some _ =>
      run.1.1 = inr (passed (rpc (newClient target) w).1) ∧
      run.2 = (rpc (newClient target) w).2 ∧
      ∃ connection',
        run.1.2 !! target = Some connection' ∧
        circuitBreaker connection' =
          match (rpc (newClient target) w).1 with
          | Resolved _ => onSuccess new_breaker
          | Rejected _ =>
              onFailure pool_options (at_failure clock) (at_reopen clock)
                new_breaker
          end ∧
        state (circuitBreaker connection') = Closed
  end.
Proof.
  intros Hstored. cbn zeta. unfold processFile, getConnection, isChannelReady.
  rewrite Hstored.
  assert (∀ connections' : gmap string (ClientConnection Channel Client),
    let run :=
      let '(result, cb, w') :=
        execute pool_options (rpc (newClient target)) clock new_breaker w in
      (inr result : TypeError + (thrown X + T),
       <[target := {| client := newClient target;
                      channel := newChannel target;
                      lastUsed := now; circuitBreaker := cb |}]> connections',
       w') in
    run.1.1 = inr (passed (rpc (newClient target) w).1) ∧
    run.2 = (rpc (newClient target) w).2 ∧
    ∃ connection',
      run.1.2 !! target = Some connection' ∧
      circuitBreaker connection' =
        match (rpc (newClient target) w).1 with
        | Resolved _ => onSuccess new_breaker
        | Rejected _ =>
            onFailure pool_options (at_failure clock) (at_reopen clock)
              new_breaker
        end ∧
      state (circuitBreaker connection') = Closed) as Hfresh.
  { intros connections'. cbn zeta. unfold execute.
    rewrite attempt_recovery_not_open by done. cbn [state new_breaker].
    destruct (rpc (newClient target) w) as [[value|error] w''];
      cbn [fst snd passed]; (split_and!; [done..|]); eexists;
      rewrite lookup_insert_eq; split_and!; done. }
  destruct (getState (channel connection)) as [[]|]; try done;
    try (rewrite bool_decide_eq_false_2 by done);
    cbn [createConnection client channel lastUsed circuitBreaker];
    try apply Hfresh.
  rewrite bool_decide_eq_true_2 by done.
  cbn [client channel lastUsed circuitBreaker].
  destruct (execute pool_options (rpc (client connection)) clock
              (circuitBreaker connection) w) as [[result cb] w'].
  cbn [fst snd]. split_and!; [done..|]. by rewrite lookup_insert_eq.
Qed.

(** X12.  Targets do not share a breaker: a call for one target leaves
    the connection, and so the counters, of every other target as they
    were. *)
Theorem processFile_other_targets
    (getState : Channel → option connectivityState) (now_created now : Z)
    (clock : Clock) (target other : string)
    (connections : gmap string (ClientConnection Channel Client)) (w : W) :
  target ≠ other →
  (processFile Channel Client newChannel newClient T X W rpc
     getState now_created now clock target connections w).1.2 !! other
  = connections !! other.
Proof.
  intros Hne. unfold processFile.
  destruct (getConnection _ _ _ _ _ _ _ _ _)
    as [error|[connection connections']] eqn:Hget; [done|].
  assert (connections' !! other = connections !! other) as <-.
  { unfold getConnection in Hget.
    destruct (connections !! target) as [stored|].
    - destruct (isChannelReady _ _ _) as [?|[]]; try done;
        injection Hget as <- <-; by rewrite lookup_insert_ne.
    - injection Hget as <- <-. by rewrite lookup_insert_ne. }
  destruct (execute _ _ _ _ _) as [[result cb] w']. cbn [fst snd].
  by rewrite lookup_insert_ne.
Qed.

End Pool.


(** Sample runs, on scripted downstream calls. *)

Lemma execute_passes_outcome_witness :
  let options := {| failureThreshold := 5; recoveryTimeout := 30000;
                    monitoringPeriod := 60000 |} in
  let cb := {| state := Open; failureCount := 5; successCount := 0;
               lastFailureTime := 1000; nextAttemptTime := 31000 |} in
  let '(result, _, world) :=
    execute options (counted scripted) (at_time 31000) cb ([false], 5%nat) in
  result = passed (scripted [false]).1 ∧
  world = ((scripted [false]).2, 6%nat).
Proof.
  apply (execute_passes_outcome
           {| failureThreshold := 5; recoveryTimeout := 30000;
              monitoringPeriod := 60000 |}
           scripted (at_time 31000)
           {| state := Open; failureCount := 5; successCount := 0;
              lastFailureTime := 1000; nextAttemptTime := 31000 |}
           [false] 5%nat).
  cbn. intros [_ ?]. lia.
Defined.

Lemma three_successes_close_witness :
  let options := {| failureThreshold := 5; recoveryTimeout := 30000;
                    monitoringPeriod := 60000 |} in
  let cb := {| state := Open; failureCount := 5; successCount := 9;
               lastFailureTime := 1000; nextAttemptTime := 31000 |} in
  let clocks := [at_time 31000; at_time 31001; at_time 31002] in
  state <$> run_trace options scripted clocks cb [true; true; true]
    = [HalfOpen; HalfOpen; Closed] ∧
  successCount <$> run_trace options scripted clocks cb [true; true; true]
    = [1; 2; 3] ∧
  failureCount <$> run_trace options scripted clocks cb [true; true; true]
    = [0; 0; 0].
Proof.
  apply (three_successes_close
           {| failureThreshold := 5; recoveryTimeout := 30000;
              monitoringPeriod := 60000 |}
           scripted (at_time 31000) (at_time 31001) (at_time 31002)
           {| state := Open; failureCount := 5; successCount := 9;
              lastFailureTime := 1000; nextAttemptTime := 31000 |}
           [true; true; true] [true; true] [true] [] () () ());
    first [reflexivity | cbn; lia].
Defined.

Lemma trial_failure_reopens_witness :
  let options := {| failureThreshold := 5; recoveryTimeout := 30000;
                    monitoringPeriod := 60000 |} in
  let cb := {| state := Open; failureCount := 5; successCount := 0;
               lastFailureTime := 1000; nextAttemptTime := 31000 |} in
  ∃ cb',
    execute options scripted (at_time 31000) cb [false]
    = (inl (FnError ()), cb', []) ∧
    lastFailureTime cb' = at_failure (at_time 31000) ∧
    failureCount cb' = failureCount cb + 1 ∧
    successCount cb' = 0 ∧
    if bool_decide (failureThreshold options ≤ failureCount cb + 1)
    then state cb' = Open ∧
         nextAttemptTime cb'
         = at_reopen (at_time 31000) + recoveryTimeout options
    else state cb' = HalfOpen ∧ nextAttemptTime cb' = nextAttemptTime cb.
Proof.
  apply (trial_failure_reopens
           {| failureThreshold := 5; recoveryTimeout := 30000;
              monitoringPeriod := 60000 |}
           scripted (at_time 31000)
           {| state := Open; failureCount := 5; successCount := 0;
              lastFailureTime := 1000; nextAttemptTime := 31000 |}
           [false] [] ()).
  - reflexivity.
  - cbn. lia.
  - reflexivity.
Defined.

Lemma processFile_on_stored_connection_witness :
  let stored : ClientConnection unit unit :=
    {| client := (); channel := (); lastUsed := 1000;
       circuitBreaker := onSuccess new_breaker |} in
  let connections : gmap string (ClientConnection unit unit) :=
    {[ "peer:50051"%string := stored ]} in
  processFile unit unit (λ _, ()) (λ _, ()) unit unit (list bool)
    (λ _, scripted) (λ _, None) 2000 2001 (at_time 2002)
    "peer:50051" connections [true]
  = (inl NotAFunction, connections, [true]).
Proof.
  apply (processFile_on_stored_connection unit unit (λ _, ()) (λ _, ())
           unit unit (list bool) (λ _, scripted) (λ _, None)
           2000 2001 (at_time 2002) "peer:50051"
           {[ "peer:50051"%string :=
                {| client := (); channel := (); lastUsed := 1000;
                   circuitBreaker := onSuccess new_breaker |} ]}
           {| client := (); channel := (); lastUsed := 1000;
              circuitBreaker := onSuccess new_breaker |}
           [true]).
  reflexivity.
Defined.

Lemma processFile_other_targets_witness :
  let connections : gmap string (ClientConnection unit unit) :=
    {[ "other:50051"%string :=
         {| client := (); channel := (); lastUsed := 1000;
            circuitBreaker := new_breaker |} ]} in
  (processFile unit unit (λ _, ()) (λ _, ()) unit unit (list bool)
     (λ _, scripted) (λ _, None) 2000 2001 (at_time 2002)
     "peer:50051" connections [false]).1.2 !! "other:50051"%string
  = connections !! "other:50051"%string.
Proof.
  apply (processFile_other_targets unit unit (λ _, ()) (λ _, ())
           unit unit (list bool) (λ _, scripted) (λ _, None)
           2000 2001 (at_time 2002) "peer:50051" "other:50051").
  discriminate.
Defined.

End BreakerMore.

(** ** Ingestion pipeline: further properties *)

Module IngestMore.
Import Ingest IngestProofs.

(** *** When the pattern loop ends *)

Lemma until_quote_none (s : text) :
  until_quote s = None ↔ existsb (λ c, Ascii.eqb c dquote) s = false.
Proof.
  induction s as [|c s IH]; [done|]. cbn.
  destruct (Ascii.eqb c dquote); cbn; [done|].
  destruct (until_quote s); cbn; [|tauto].
  split; [done|]. intros H. apply IH in H. done.
Qed.

Lemma match_field_zero (line : text) :
  (match_field line).2 = 0%nat ↔ starts_stuck line = true.
Proof.
  destruct line as [|c rest]; [done|]. cbn [match_field starts_stuck].
  destruct (Ascii.eqb c dquote) eqn:Hq.
  - apply Ascii.eqb_eq in Hq as ->.
    change (Ascii.eqb dquote ",") with false. cbn [orb andb].
    destruct (until_quote rest) as [inner|] eqn:Hu; cbn [snd].
    + split; [lia|]. intros Hn%negb_true_iff. apply until_quote_none in Hn.
      congruence.
    + split; [|done]. intros _. apply negb_true_iff. by apply until_quote_none.
  - cbn [plain_run snd]. rewrite Hq. cbn [orb andb].
    destruct (Ascii.eqb c ","); cbn; [done|]. split; [lia|done].
Qed.

Lemma match_field_zero_empty (line : text) :
  (match_field line).2 = 0%nat → match_field line = ([], 0%nat).
Proof.
  destruct line as [|c rest]; [done|]. cbn [match_field].
  destruct (Ascii.eqb c dquote).
  - destruct (until_quote rest); cbn; [lia|done].
  - destruct (plain_run (c :: rest)); cbn; [done|lia].
Qed.

Lemma find_comma_lt (s : text) (off : nat) :
  find_comma s = Some off → (off < length s)%nat.
Proof.
  revert off. induction s as [|c s IH]; intros off; [done|]. cbn.
  destruct (Ascii.eqb c ","); [intros [= <-]; lia|].
  destruct (find_comma s) as [n|]; cbn; [|done].
  intros [= <-]. specialize (IH n eq_refl). lia.
Qed.

(** Once [lastIndex] is past zero every match moves it forward, so the
    loop ends within one search per remaining character, with at most
    one more value per remaining character. *)
Lemma parseLine_loop_ends (line : text) (fuel : nat) :
  ∀ (lastIndex : nat) (values : list text),
  (0 < lastIndex)%nat →
  (length line + 1 - lastIndex < fuel)%nat →
  Z.of_nat (length values) + Z.of_nat (length line + 1 - lastIndex)
  ≤ max_array_length →
  ∃ result, parseLine_loop fuel line lastIndex values = Some (inr result).
Proof.
  induction fuel as [|fuel IH]; intros lastIndex values Hpos Hfuel Hroom; [lia|].
  cbn [parseLine_loop]. unfold exec.
  destruct lastIndex as [|n]; [lia|].
  destruct (find_comma (drop (S n) line)) as [off|] eqn:Hcomma; [|by eexists].
  apply find_comma_lt in Hcomma. rewrite length_drop in Hcomma.
  destruct (match_field (drop (S n + off + 1) line)) as [v m].
  rewrite push_ok by lia.
  apply IH; rewrite ?length_app; cbn [length]; lia.
Qed.

(** A line whose first match is not empty is parsed within one search
    per character plus two, if an array can hold a value per
    character. *)
Lemma parseLine_ends (line : text) (fuel : nat) :
  starts_stuck line = false →
  (length line + 1 < fuel)%nat →
  Z.of_nat (length line) < max_array_length →
  ∃ values, parseLine fuel line = Some (inr values).
Proof.
  intros Hfree Hfuel Hroom.
  assert ((match_field line).2 ≠ 0%nat) as Hn.
  { intros Hz%match_field_zero. congruence. }
  unfold parseLine. destruct fuel as [|fuel]; [lia|].
  cbn [parseLine_loop]. unfold exec.
  destruct (match_field line) as [v n]. cbn [snd] in Hn.
  rewrite push_ok by (cbn [length]; lia).
  apply parseLine_loop_ends; cbn [length app]; lia.
Qed.

(** X13.  The pattern loop of [parseLine] returns exactly on the lines
    whose first match is not empty.  On an empty line, a line starting
    with a comma, or a line starting with a double quote that is never
    closed, [exec] never moves [lastIndex]: every iteration pushes one
    more empty string, the loop returns no values however long it runs,
    and it ends when [push] throws its [RangeError].  On every other
    line that is shorter than the largest array it returns within one
    search per character plus two. *)
Theorem parseLine_returns_iff_first_match (line : text) :
  (starts_stuck line = true →
   (∀ fuel values, parseLine fuel line ≠ Some (inr values)) ∧
   (∀ fuel, max_array_length < Z.of_nat fuel →
            parseLine fuel line = Some (inl (lit "Invalid array length")))) ∧
  (starts_stuck line = false →
   Z.of_nat (length line) < max_array_length →
   ∀ fuel, (length line + 1 < fuel)%nat →
           ∃ values, parseLine fuel line = Some (inr values)).
Proof.
  split.
  - intros Hstuck%match_field_zero%match_field_zero_empty.
    split; intros fuel; by apply parseLine_empty_first_match.
  - intros Hfree Hroom fuel Hfuel. by apply parseLine_ends.
Qed.

(** The only error the loop throws is the one of [push]. *)
Lemma parseLine_loop_error (fuel : nat) (line : text) :
  ∀ (lastIndex : nat) (values : list text) (error : text),
  parseLine_loop fuel line lastIndex values = Some (inl error) →
  error = lit "Invalid array length".
Proof.
  induction fuel as [|fuel IH]; intros lastIndex values error; [done|].
  cbn [parseLine_loop].
  destruct (exec line lastIndex) as [[v lastIndex']|]; [|done].
  unfold push. destruct (_ <? _); [apply IH|]. by intros [= <-].
Qed.

Lemma parse_data_lines_never (parseFloat : text → float) (fuel : nat)
    (headers : list text) (line : text) (lines : list text) :
  line ∈ lines →
  starts_stuck line = true →
  ∀ rows result,
    parse_data_lines parseFloat fuel headers lines rows ≠ Some (inr result).
Proof.
  intros Hin Hstuck%match_field_zero%match_field_zero_empty.
  induction lines as [|l lines IH]; intros rows result;
    [by apply elem_of_nil in Hin|].
  cbn [parse_data_lines].
  destruct (parseLine fuel l) as [[error|values]|] eqn:Hl; cbn; [done| |done].
  apply elem_of_cons in Hin as [Heq|Hin].
  - subst l.
    destruct (parseLine_empty_first_match fuel line Hstuck) as [Hnever _].
    by destruct (Hnever values).
  - destruct (existsb _ values); by apply IH.
Qed.

Lemma parse_data_lines_throws (parseFloat : text → float) (fuel : nat)
    (headers : list text) (line : text) (lines : list text) :
  line ∈ lines →
  starts_stuck line = true →
  max_array_length + 1 < Z.of_nat fuel →
  ∀ rows,
    parse_data_lines parseFloat fuel headers lines rows
    = Some (inl (lit "Invalid array length")).
Proof.
  intros Hin Hstuck%match_field_zero%match_field_zero_empty Hfuel.
  induction lines as [|l lines IH]; intros rows;
    [by apply elem_of_nil in Hin|].
  cbn [parse_data_lines].
  destruct (parseLine_total fuel l Hfuel) as [[error|values] Hl]; rewrite Hl; cbn.
  - by rewrite (parseLine_loop_error _ _ _ _ _ Hl).
  - apply elem_of_cons in Hin as [Heq|Hin].
    + subst l.
      destruct (parseLine_empty_first_match fuel line Hstuck) as [Hnever _].
      by destruct (Hnever values).
    + destruct (existsb _ values); by apply IH.
Qed.

(** X14.  One such line anywhere in the file makes the whole pipeline
    fail: when a non-blank line starts with a comma or with a double
    quote that is never closed on that line, [processCsvFile] returns
    no result however long it runs, and what it throws in the end is
    the [RangeError] of the full array, wrapped as a parse error. *)
Theorem processCsvFile_throws_on_empty_first_match
    (localeCompare : text → text → Z) (parseFloat : text → float)
    (t : Timings) (buffer line : text) :
  line ∈ nonblank_lines buffer →
  starts_stuck line = true →
  (∀ fuel result,
     processCsvFile localeCompare parseFloat fuel t buffer
     ≠ Some (inr result)) ∧
  (∀ fuel, max_array_length + 1 < Z.of_nat fuel →
     processCsvFile localeCompare parseFloat fuel t buffer
     = Some (inl (lit "Failed to parse CSV: Invalid array length"))).
Proof.
  intros Hin Hstuck.
  pose proof (match_field_zero_empty line (proj2 (match_field_zero line) Hstuck))
    as Hempty.
  unfold processCsvFile, parseCSVWithRegex.
  destruct (nonblank_lines buffer) as [|first rest]; [by apply elem_of_nil in Hin|].
  split.
  - intros fuel result.
    destruct (parseLine fuel first) as [[error|headers]|] eqn:Hfirst;
      cbn; [done| |done].
    apply elem_of_cons in Hin as [Heq|Hin].
    + subst first.
      destruct (parseLine_empty_first_match fuel line Hempty) as [Hnever _].
      by destruct (Hnever headers).
    + pose proof (parse_data_lines_never parseFloat fuel (map trim headers)
                    line rest Hin Hstuck []) as Hnever.
      destruct (parse_data_lines parseFloat fuel (map trim headers) rest [])
        as [[error|rows]|]; cbn; [done| |done].
      by destruct (Hnever rows).
  - intros fuel Hfuel.
    destruct (parseLine_total fuel first ltac:(lia)) as [[error|headers] Hfirst];
      rewrite Hfirst; cbn.
    + by rewrite (parseLine_loop_error _ _ _ _ _ Hfirst).
    + apply elem_of_cons in Hin as [Heq|Hin].
      * subst first.
        destruct (parseLine_empty_first_match fuel line Hempty) as [Hnever _].
        by destruct (Hnever headers).
      * by rewrite (parse_data_lines_throws parseFloat fuel _ line rest).
Qed.

(** *** What the line parsers return *)

Lemma trim_start_subset (s : text) (c : ascii) : c ∈ trim_start s → c ∈ s.
Proof.
  induction s as [|a s IH]; [done|]. cbn.
  destruct (is_space a); [|done]. intros H%IH. apply elem_of_cons. by right.
Qed.

Lemma elem_of_rev (s : text) (c : ascii) : c ∈ rev s ↔ c ∈ s.
Proof. rewrite !list_elem_of_In. symmetry. apply in_rev. Qed.

Lemma trim_subset (s : text) (c : ascii) : c ∈ trim s → c ∈ s.
Proof.
  unfold trim. rewrite elem_of_rev. intros H%trim_start_subset.
  rewrite elem_of_rev in H. by apply trim_start_subset.
Qed.

Lemma until_quote_no_quote (s inner : text) :
  until_quote s = Some inner → dquote ∉ inner.
Proof.
  revert inner. induction s as [|c s IH]; intros inner; [done|]. cbn.
  destruct (Ascii.eqb c dquote) eqn:Hq.
  - intros [= <-]. apply not_elem_of_nil.
  - destruct (until_quote s) as [inner'|]; cbn; [|done].
    intros [= <-]. rewrite elem_of_cons. intros [Heq|Hin].
    + subst c. by rewrite Ascii.eqb_refl in Hq.
    + by apply (IH inner').
Qed.

Lemma plain_run_no_quote (s : text) : dquote ∉ plain_run s.
Proof.
  induction s as [|c s IH]; cbn; [apply not_elem_of_nil|].
  destruct (Ascii.eqb c dquote) eqn:Hq; cbn; [apply not_elem_of_nil|].
  destruct (Ascii.eqb c ","); [apply not_elem_of_nil|].
  rewrite elem_of_cons. intros [Heq|Hin]; [|done].
  subst c. by rewrite Ascii.eqb_refl in Hq.
Qed.

Lemma match_field_no_quote (s : text) : dquote ∉ (match_field s).1.
Proof.
  destruct s as [|c s]; cbn [match_field]; [apply not_elem_of_nil|].
  destruct (Ascii.eqb c dquote).
  - destruct (until_quote s) as [inner|] eqn:Hu; cbn;
      [by eapply until_quote_no_quote|apply not_elem_of_nil].
  - apply plain_run_no_quote.
Qed.

Lemma parseLine_loop_no_quote (fuel : nat) (line : text) :
  ∀ (lastIndex : nat) (values result : list text),
  Forall (λ v, dquote ∉ v) values →
  parseLine_loop fuel line lastIndex values = Some (inr result) →
  Forall (λ v, dquote ∉ v) result.
Proof.
  induction fuel as [|fuel IH]; intros lastIndex values result Hvalues; [done|].
  cbn [parseLine_loop].
  destruct (exec line lastIndex) as [[v lastIndex']|] eqn:Hexec;
    [|by intros [= <-]].
  unfold push. destruct (_ <? _); [|done].
  apply IH. apply Forall_app. split; [done|]. apply Forall_singleton.
  unfold exec in Hexec. destruct lastIndex as [|n].
  - pose proof (match_field_no_quote line) as Hq.
    destruct (match_field line). by injection Hexec as <- _.
  - destruct (find_comma (drop (S n) line)) as [off|]; [|done].
    pose proof (match_field_no_quote (drop (S n + off + 1) line)) as Hq.
    destruct (match_field (drop (S n + off + 1) line)).
    by injection Hexec as <- _.
Qed.

Lemma parseCSVLine_from_no_quote (line : text) :
  ∀ (result : list text) (current : text) (inQuotes : bool),
  Forall (λ v, dquote ∉ v) result →
  dquote ∉ current →
  Forall (λ v, dquote ∉ v) (parseCSVLine_from line result current inQuotes).
Proof.
  assert (∀ current, dquote ∉ current → dquote ∉ trim (rev current)) as Htrim.
  { intros current Hc Hin%trim_subset. by rewrite elem_of_rev in Hin. }
  induction line as [|c line IH]; intros result current inQuotes Hres Hcur;
    cbn [parseCSVLine_from].
  - apply Forall_app. split; [done|]. apply Forall_singleton. by apply Htrim.
  - destruct (Ascii.eqb c dquote) eqn:Hq; [by apply IH|].
    destruct (Ascii.eqb c "," && negb inQuotes).
    + apply IH; [|apply not_elem_of_nil].
      apply Forall_app. split; [done|]. apply Forall_singleton. by apply Htrim.
    + apply IH; [done|]. rewrite elem_of_cons. intros [Heq|Hin]; [|done].
      subst c. by rewrite Ascii.eqb_refl in Hq.
Qed.

Lemma parseCSVLine_from_length (line : text) :
  ∀ (result : list text) (current : text) (inQuotes : bool),
  (length result < length (parseCSVLine_from line result current inQuotes))%nat.
Proof.
  induction line as [|c line IH]; intros result current inQuotes;
    cbn [parseCSVLine_from].
  - rewrite length_app. cbn. lia.
  - destruct (Ascii.eqb c dquote); [apply IH|].
    destruct (Ascii.eqb c "," && negb inQuotes); [|apply IH].
    specialize (IH (result ++ [trim (rev current)]) [] inQuotes).
    rewrite length_app in IH. cbn in IH. lia.
Qed.

(** X15.  Neither line parser ever returns a double quote inside a
    value: quotes only delimit.  [parseCSVLine] always returns at least
    one value. *)
Theorem line_parsers_strip_quotes (fuel : nat) (line : text) :
  (∀ values, parseLine fuel line = Some (inr values) →
             Forall (λ v, dquote ∉ v) values) ∧
  Forall (λ v, dquote ∉ v) (parseCSVLine line) ∧
  parseCSVLine line ≠ [].
Proof.
  split_and!.
  - intros values. by apply parseLine_loop_no_quote.
  - apply parseCSVLine_from_no_quote; [done|apply not_elem_of_nil].
  - pose proof (parseCSVLine_from_length line [] [] false) as Hlen.
    unfold parseCSVLine. intros Hnil. rewrite Hnil in Hlen. cbn in Hlen. lia.
Qed.

Lemma buffer_rows_all (headers : list text) (lines : list text) :
  ∀ rows, buffer_rows headers lines rows
          = rows ++ map (λ line, buffer_row headers (parseCSVLine line)) lines.
Proof.
  induction lines as [|line lines IH]; intros rows; cbn [buffer_rows map].
  - by rewrite app_nil_r.
  - pose proof (parseCSVLine_from_length line [] [] false) as Hlen.
    fold (parseCSVLine line) in Hlen.
    destruct (0 <? length (parseCSVLine line))%nat eqn:Hpos.
    + by rewrite IH, <- app_assoc.
    + apply Nat.ltb_ge in Hpos. cbn in Hlen. lia.
Qed.

(** X16.  [parseCSVBuffer] throws its empty-file error exactly when the
    buffer has no non-blank line; otherwise it takes the first non-blank
    line as header and returns one row for every further non-blank
    line, in order, none skipped. *)
Theorem parseCSVBuffer_one_row_per_line (buffer : text) :
  match nonblank_lines buffer with
  | [] => parseCSVBuffer buffer = inl (lit "CSV file is empty")
  | first :: rest =>
      parseCSVBuffer buffer
      = inr (parseCSVLine first,
             map (λ line, buffer_row (parseCSVLine first) (parseCSVLine line))
                 rest)
  end.
Proof.
  unfold parseCSVBuffer. destruct (nonblank_lines buffer) as [|first rest]; [done|].
  by rewrite buffer_rows_all.
Qed.

(** *** Blank and header-only files *)

Lemma split_lines_from_chars (n : nat) :
  ∀ (s cur line : text) (c : ascii),
  (length s ≤ n)%nat →
  line ∈ split_lines_from cur s → c ∈ line → c ∈ cur ∨ c ∈ s.
Proof.
  induction n as [|n IH]; intros s cur line c Hlen.
  - destruct s; [|cbn in Hlen; lia]. cbn.
    intros ->%list_elem_of_singleton Hc. rewrite elem_of_rev in Hc. by left.
  - destruct s as [|a s]; cbn [split_lines_from].
    { intros ->%list_elem_of_singleton Hc. rewrite elem_of_rev in Hc. by left. }
    cbn [length] in Hlen.
    assert (∀ cur', line ∈ split_lines_from (a :: cur') s → c ∈ line →
                    c ∈ cur' ∨ c ∈ a :: s) as Hkeep.
    { intros cur' Hin Hc.
      destruct (IH s (a :: cur') line c ltac:(lia) Hin Hc) as [H|H].
      - apply elem_of_cons in H as [->|H]; [right; by left|by left].
      - right. by right. }
    assert (∀ s', (length s' ≤ n)%nat → (∀ x, x ∈ s' → x ∈ a :: s) →
                  line ∈ rev cur :: split_lines_from [] s' → c ∈ line →
                  c ∈ cur ∨ c ∈ a :: s) as Hbreak.
    { intros s' Hs' Hsub [->|Hin]%elem_of_cons Hc.
      - left. by rewrite elem_of_rev in Hc.
      - destruct (IH s' [] line c Hs' Hin Hc) as [H|H];
          [by apply elem_of_nil in H|right; by apply Hsub]. }
    destruct (Ascii.eqb a "010").
    { apply Hbreak; [lia|]. intros x Hx. by right. }
    destruct (Ascii.eqb a "013"); [|apply Hkeep].
    destruct s as [|b s']; [apply Hkeep|].
    destruct (Ascii.eqb b "010"); [|apply Hkeep].
    apply Hbreak; [cbn in Hlen; lia|]. intros x Hx. right. by right.
Qed.

Lemma filter_none {A} (p : A → bool) (l : list A) :
  (∀ x, x ∈ l → p x = false) → List.filter p l = [].
Proof.
  induction l as [|x l IH]; intros Hall; [done|]. cbn.
  rewrite (Hall x) by (by left). apply IH. intros y Hy. apply Hall. by right.
Qed.

Lemma blank_has_no_lines (buffer : text) :
  forallb is_space buffer = true → nonblank_lines buffer = [].
Proof.
  intros Hblank. unfold nonblank_lines, split_lines. apply filter_none.
  intros line Hline. rewrite truthy_trim.
  destruct (existsb (λ c, negb (is_space c)) line) eqn:Hex; [|done].
  apply existsb_exists in Hex as (c & Hc%list_elem_of_In & Hns).
  destruct (split_lines_from_chars (length buffer) buffer [] line c
              (le_n _) Hline Hc) as [H|H]; [by apply elem_of_nil in H|].
  rewrite forallb_forall in Hblank. apply list_elem_of_In, Hblank in H.
  by rewrite H in Hns.
Qed.

Section Local.

Variable localeCompare : text → text → Z.
Variable parseFloat : text → float.

(** X17.  A buffer that holds nothing but white space (the empty buffer
    included) is rejected by both parsers: [processCsvFile] throws the
    wrapped empty-file error and [parseCSVBuffer] the bare one. *)
Theorem blank_input_is_rejected (fuel : nat) (t : Timings) (buffer : text) :
  forallb is_space buffer = true →
  processCsvFile localeCompare parseFloat fuel t buffer
    = Some (inl (lit "Failed to parse CSV: CSV file is empty")) ∧
  parseCSVBuffer buffer = inl (lit "CSV file is empty").
Proof.
  intros Hblank%blank_has_no_lines.
  unfold processCsvFile, parseCSVWithRegex, parseCSVBuffer.
  by rewrite Hblank.
Qed.

(** X18.  A file with a header and no data line is not an error: when
    the header is the only non-blank line (and the pattern loop returns
    on it: its first match is not empty and it is shorter than the
    largest array), [processCsvFile] returns a result with zero rows,
    zero errors and no summary. *)
Theorem header_only_gives_empty_result
    (fuel : nat) (t : Timings) (buffer header : text) :
  nonblank_lines buffer = [header] →
  starts_stuck header = false →
  Z.of_nat (length header) < max_array_length →
  (length header + 1 < fuel)%nat →
  ∃ res,
    processCsvFile localeCompare parseFloat fuel t buffer = Some (inr res) ∧
    rowCount res = 0%nat ∧ successCount res = 0%nat ∧
    errorCount res = 0%nat ∧ summaries res = [].
Proof.
  intros Hlines Hfree Hroom Hfuel.
  destruct (parseLine_ends header fuel Hfree Hfuel Hroom) as [values Hvalues].
  unfold processCsvFile, parseCSVWithRegex. rewrite Hlines, Hvalues. cbn.
  eexists. split; [reflexivity|]. done.
Qed.

(** *** Summaries and rows *)

Lemma add_row_total (row : CsvRow) (aggregation : list (text * Group)) :
  sum_list_with (λ entry, g_count entry.2) (add_row row aggregation)
  = S (sum_list_with (λ entry, g_count entry.2) aggregation).
Proof.
  induction aggregation as [|[key existing] aggregation IH]; [done|].
  cbn [add_row]. destruct (decide (key = group_key row)); cbn; [done|].
  rewrite IH. lia.
Qed.

Lemma add_row_positive (row : CsvRow) (aggregation : list (text * Group)) :
  Forall (λ entry, (1 ≤ g_count entry.2)%nat) aggregation →
  Forall (λ entry, (1 ≤ g_count entry.2)%nat) (add_row row aggregation).
Proof.
  induction 1 as [|[key existing] aggregation Hhead Htail IH]; cbn [add_row].
  - apply Forall_singleton. done.
  - destruct (decide (key = group_key row)); apply Forall_cons; cbn in *;
      split; try done; lia.
Qed.

Lemma aggregation_totals (rows : list CsvRow) :
  ∀ aggregation,
  sum_list_with (λ entry, g_count entry.2)
    (foldl (λ agg row, add_row row agg) aggregation rows)
  = (sum_list_with (λ entry, g_count entry.2) aggregation + length rows)%nat ∧
  (Forall (λ entry, (1 ≤ g_count entry.2)%nat) aggregation →
   Forall (λ entry, (1 ≤ g_count entry.2)%nat)
     (foldl (λ agg row, add_row row agg) aggregation rows)).
Proof.
  induction rows as [|row rows IH]; intros aggregation; cbn [foldl length].
  - split; [lia|done].
  - destruct (IH (add_row row aggregation)) as [Hsum Hpos].
    rewrite Hsum, add_row_total. split; [lia|].
    intros H. by apply Hpos, add_row_positive.
Qed.

Lemma sort_insert_total (a : RegionSummary) (l : list RegionSummary) :
  sum_list_with s_count (sort_insert localeCompare a l)
  = (s_count a + sum_list_with s_count l)%nat.
Proof.
  induction l as [|b l IH]; cbn; [done|].
  case_bool_decide; cbn; [done|]. rewrite IH. lia.
Qed.

Lemma sort_by_region_total (l : list RegionSummary) :
  sum_list_with s_count (sort_by_region localeCompare l)
  = sum_list_with s_count l.
Proof.
  induction l as [|a l IH]; [done|]. cbn.
  unfold sort_by_region in IH. by rewrite sort_insert_total, IH.
Qed.

Lemma aggregateRegionData_counts (rows : list CsvRow) :
  sum_list_with s_count (aggregateRegionData localeCompare rows) = length rows ∧
  Forall (λ s, (1 ≤ s_count s)%nat) (aggregateRegionData localeCompare rows).
Proof.
  unfold aggregateRegionData.
  destruct (aggregation_totals rows []) as [Hsum Hpos].
  specialize (Hpos ltac:(constructor)).
  set (aggregation := foldl (λ agg row, add_row row agg) [] rows) in *.
  split.
  - rewrite sort_by_region_total. cbn in Hsum. rewrite <- Hsum.
    clear. induction aggregation as [|[key data] aggregation IH]; [done|].
    cbn. by rewrite IH.
  - apply Forall_forall. intros s Hs%sort_by_region_elem.
    apply list_elem_of_In, in_map_iff in Hs as ([key data] & <- & Hin).
    rewrite Forall_forall in Hpos.
    apply (Hpos (key, data)). by apply list_elem_of_In.
Qed.

(** X19.  The summaries of a result account for every valid row exactly
    once: their counts add up to [successCount], each count is at least
    one, and there is no summary exactly when no row was valid. *)
Theorem summaries_count_valid_rows (fuel : nat) (t : Timings) (buffer : text)
    (res : ParseResult) :
  processCsvFile localeCompare parseFloat fuel t buffer = Some (inr res) →
  sum_list_with s_count (summaries res) = successCount res ∧
  Forall (λ s, (1 ≤ s_count s)%nat) (summaries res) ∧
  (summaries res = [] ↔ successCount res = 0%nat).
Proof.
  unfold processCsvFile.
  destruct (parseCSVWithRegex parseFloat fuel buffer)
    as [[message|[headers rows]]|]; cbn; try done.
  intros [= <-]. unfold finish.
  destruct (validate_rows rows [] 0) as [validatedRows errors].
  cbn [summaries successCount].
  destruct (aggregateRegionData_counts validatedRows) as [Hsum Hpos].
  split_and!; [done|done|]. split.
  - intros Hnil. rewrite Hnil in Hsum. cbn in Hsum. lia.
  - intros Hzero. rewrite Hzero in Hsum.
    destruct (aggregateRegionData localeCompare validatedRows) as [|s l]; [done|].
    apply Forall_cons in Hpos as [Hs _]. cbn in Hsum. lia.
Qed.

(** X20.  Given a comparison in which any two regions are ordered one
    way or the other, the summaries come out in non-decreasing order of
    region. *)
Theorem summaries_sorted_by_region (rows : list CsvRow) :
  (∀ a b, localeCompare a b ≤ 0 ∨ localeCompare b a ≤ 0) →
  Sorted (λ a b, localeCompare (s_region a) (s_region b) ≤ 0)
         (aggregateRegionData localeCompare rows).
Proof.
  intros Htotal. unfold aggregateRegionData.
  generalize (map (λ '(_, data), summarize data)
                (foldl (λ agg row, add_row row agg) [] rows)).
  intros l. induction l as [|a l IH]; [constructor|].
  cbn. unfold sort_by_region in IH.
  induction IH as [|b sorted Hsorted IHs Hhd]; cbn.
  - repeat constructor.
  - case_bool_decide as Hab.
    + constructor; [by constructor|by constructor].
    + constructor; [done|].
      destruct sorted as [|c sorted]; cbn.
      * constructor. destruct (Htotal (s_region a) (s_region b)); [done|done].
      * case_bool_decide.
        -- constructor. destruct (Htotal (s_region a) (s_region b)); done.
        -- constructor. by inversion Hhd.
Qed.

End Local.

(** *** Row objects *)

Section Rows.

Variable parseFloat : text → float.

(** X21.  Ragged rows.  When the normalised header names are distinct,
    the row object of a line holds, under each header, the cell read at
    that header's own position; a header past the end of the line gets
    the empty string (for a key that is not amount-like), and values
    past the last header are dropped: the object has no other property
    of its own.  The one exception is a header whose normalised name is
    the name the prototype intercepts: nothing is stored for it. *)
Theorem make_row_reads_columns (headers values : list text) :
  NoDup (normalize_key <$> headers) →
  (∀ i header, headers !! i = Some header →
     normalize_key header ≠ lit "__proto__" →
     make_row parseFloat headers values !! normalize_key header
     = Some (cell parseFloat header (values !! i)).2) ∧
  (∀ i header, headers !! i = Some header →
     normalize_key header ≠ lit "__proto__" →
     (length values ≤ i)%nat →
     amount_like (normalize_key header) = false →
     make_row parseFloat headers values !! normalize_key header
     = Some (VStr [])) ∧
  (∀ key, key ∉ normalize_key <$> headers ∨ key = lit "__proto__" →
     make_row parseFloat headers values !! key = None).
Proof.
  intros Hnd. split_and!.
  - intros i header Hi Hproto. by apply make_row_lookup.
  - intros i header Hi Hproto Hshort Hkey.
    rewrite (make_row_lookup parseFloat headers values i header) by done.
    rewrite (lookup_ge_None_2 values i) by done. by rewrite cell_missing.
  - intros key [Hkey| ->]; unfold make_row.
    + rewrite make_row_frame; [apply lookup_empty|]. by rewrite imap_headers.
    + rewrite make_row_proto. apply lookup_empty.
Qed.

(** X22.  In CSV mode only the three required columns can make a row
    fail validation: the row object of a line is valid exactly when its
    region and country are non-empty strings and its amount is a finite
    number.  The optional columns [id], [date] and [category] are always
    strings or absent. *)
Theorem csv_row_validity (headers values : list text) :
  let row := make_row parseFloat headers values in
  valid row = true ↔
  is_Some (required_string (row !! lit "region")) ∧
  is_Some (required_string (row !! lit "country")) ∧
  is_Some (finite_number (row !! lit "amount")).
Proof.
  intros row.
  assert (∀ key, amount_like key = false →
                 is_Some (optional_string (row !! key))) as Hopt.
  { intros key Hkey.
    pose proof (make_row_numbers parseFloat values
                  (imap (λ index header, (index, header)) headers) ∅
                  (map_Forall_empty _) key) as Hnum.
    fold (make_row parseFloat headers values) in Hnum. fold row in Hnum.
    destruct (row !! key) as [[s|n]|]; cbn; [by eexists| |by eexists].
    destruct (Hnum (VNum n) eq_refl n eq_refl) as [Habs _]. congruence. }
  destruct (Hopt (lit "id") eq_refl) as [id Hid].
  destruct (Hopt (lit "date") eq_refl) as [date Hdate].
  destruct (Hopt (lit "category") eq_refl) as [category Hcategory].
  unfold valid, CSV_ROW_SCHEMA_parse. rewrite Hid, Hdate, Hcategory.
  generalize (required_string (row !! lit "region"))
             (required_string (row !! lit "country"))
             (finite_number (row !! lit "amount")).
  intros [region|] [country|] [amount|]; cbn; split; try done;
    try (intros _; split_and!; by eexists);
    intros ([? ?] & [? ?] & [? ?]); congruence.
Qed.

End Rows.

(** *** File type detection *)

Lemma hex_digit_inj (n m : nat) :
  (n < 16)%nat → (m < 16)%nat → hex_digit n = hex_digit m → n = m.
Proof.
  intros Hn Hm.
  do 16 (destruct n as [|n];
         [do 16 (destruct m as [|m]; [by vm_compute|]); lia|]).
  lia.
Qed.

Lemma hex_byte_inj (a b : ascii) : hex_byte a = hex_byte b → a = b.
Proof.
  unfold hex_byte.
  pose proof (nat_ascii_bounded a) as Ha. pose proof (nat_ascii_bounded b) as Hb.
  pose proof (Nat.div_mod_eq (nat_of_ascii a) 16) as Hda.
  pose proof (Nat.div_mod_eq (nat_of_ascii b) 16) as Hdb.
  pose proof (Nat.mod_upper_bound (nat_of_ascii a) 16 ltac:(lia)) as Hma.
  pose proof (Nat.mod_upper_bound (nat_of_ascii b) 16 ltac:(lia)) as Hmb.
  set (ha := (nat_of_ascii a / 16)%nat) in *.
  set (la := (nat_of_ascii a mod 16)%nat) in *.
  set (hb := (nat_of_ascii b / 16)%nat) in *.
  set (lb := (nat_of_ascii b mod 16)%nat) in *.
  clearbody ha la hb lb. intros [= Hhi Hlo].
  apply hex_digit_inj in Hhi; [|lia..].
  apply hex_digit_inj in Hlo; [|lia..].
  rewrite <- (ascii_nat_embedding a), <- (ascii_nat_embedding b). f_equal. lia.
Qed.

Lemma to_hex_inj (s s' : text) : to_hex s = to_hex s' → s = s'.
Proof.
  revert s'. induction s as [|a s IH]; intros [|b s']; try done.
  change (to_hex (a :: s)) with (hex_byte a ++ to_hex s).
  change (to_hex (b :: s')) with (hex_byte b ++ to_hex s').
  intros [Hhead Htail]%app_inj_1; [|done].
  f_equal; [by apply hex_byte_inj|by apply IH].
Qed.

Lemma includes_single (s : text) (c : ascii) :
  includes s [c] = true ↔ c ∈ s.
Proof.
  induction s as [|a s IH]; cbn.
  - split; [done|by intros ?%elem_of_nil].
  - rewrite orb_true_iff, andb_true_r, IH, elem_of_cons, Ascii.eqb_eq.
    split; intros [?|?]; auto.
Qed.

Lemma detects_xlsx (buffer : text) :
  detectFileType buffer = Xlsx ↔
  buffer = zip_signature ∨ take 8 buffer = ole_signature.
Proof.
  unfold detectFileType.
  change (lit "504b0304") with (to_hex zip_signature).
  change (lit "d0cf11e0a1b11ae1") with (to_hex ole_signature).
  case_bool_decide as Hmagic.
  - split; [intros _|done]. destruct Hmagic as [Hzip%to_hex_inj|Hole%to_hex_inj];
      [left|by right].
    assert (length (take 8 buffer) = 4%nat) as Hlen by by rewrite Hzip.
    rewrite length_take in Hlen. rewrite <- Hzip. symmetry. apply take_ge. lia.
  - split; [by destruct (_ && _)|].
    intros [->|Hole]; exfalso; apply Hmagic; [by left|right; by rewrite Hole].
Qed.

(** X23.  [detectFileType] answers [xlsx] exactly for the four-byte
    buffer that is the ZIP signature alone and for buffers that begin
    with the eight-byte OLE signature; it answers [csv] exactly for the
    other buffers that have both a comma and a line feed among their
    first 1000 bytes. *)
Theorem detectFileType_spec (buffer : text) :
  (detectFileType buffer = Xlsx ↔
   buffer = zip_signature ∨ take 8 buffer = ole_signature) ∧
  (detectFileType buffer = Csv ↔
   detectFileType buffer ≠ Xlsx ∧
   ","%char ∈ take 1000 buffer ∧ "010"%char ∈ take 1000 buffer).
Proof.
  split; [apply detects_xlsx|].
  unfold detectFileType. case_bool_decide as Hmagic.
  - split; [done|]. by intros [? _].
  - assert (take (Nat.min 1000 (length buffer)) buffer = take 1000 buffer) as ->.
    { destruct (Nat.min_spec 1000 (length buffer)) as [[_ ->]|[Hle ->]]; [done|].
      by rewrite firstn_all, take_ge. }
    change (lit ",") with [","%char].
    rewrite <- !includes_single.
    destruct (includes (take 1000 buffer) [","%char]),
             (includes (take 1000 buffer) ["010"%char]); cbn;
      split; try done; try (by intros (_ & ? & ?)).
Qed.

(** X24.  A workbook in the ZIP-based format is never detected as
    [xlsx]: a buffer that starts with the ZIP signature and goes on is
    taken for [csv] or for an unknown type, according to the commas and
    line feeds it happens to hold. *)
Theorem zip_workbook_not_detected (buffer : text) :
  take 4 buffer = zip_signature →
  (4 < length buffer)%nat →
  detectFileType buffer ≠ Xlsx.
Proof.
  intros Hzip Hlen [->|Hole]%detects_xlsx.
  - cbn in Hlen. lia.
  - assert (take 1 (take 4 buffer) = take 1 (take 8 buffer)) as Hfirst
      by (rewrite !take_take; done).
    rewrite Hzip, Hole in Hfirst. done.
Qed.


(** *** Numbers in order *)

Lemma SFcompare_place (f1 f2 : spec_float) :
  f1 ≠ S754_nan → f2 ≠ S754_nan →
  SFcompare f1 f2 = Some (place_compare (place f1) (place f2)).
Proof.
  intros H1 H2.
  destruct f1 as [s1|s1| |s1 m1 e1], f2 as [s2|s2| |s2 m2 e2]; try done;
    try (by destruct s1); try (by destruct s2); try (by destruct s1, s2).
  destruct s1, s2; try done; unfold SFcompare, place, place_compare; cbn [fst snd].
  change (-1 ?= -1) with Eq. cbn match. rewrite Z.compare_opp.
  rewrite (Z.compare_antisym e1 e2).
  by destruct (e1 ?= e2).
Qed.

Lemma place_compare_spec (a b : Z * Z * Z) :
  match place_compare a b with
  | Lt => before a b
  | Eq => a = b
  | Gt => before b a
  end.
Proof.
  destruct a as [[a1 a2] a3], b as [[b1 b2] b3].
  unfold place_compare, before. cbn [fst snd].
  destruct (Z.compare_spec a1 b1); [|lia..].
  destruct (Z.compare_spec a2 b2); [|lia..].
  destruct (Z.compare_spec a3 b3); [congruence|lia..].
Qed.

Lemma is_nan_spec (x : float) : is_nan x = false ↔ Prim2SF x ≠ S754_nan.
Proof.
  unfold is_nan. rewrite FloatAxioms.eqb_spec. unfold SFeqb.
  split.
  - intros H Hn. by rewrite Hn in H.
  - intros H. rewrite SFcompare_place by done.
    pose proof (place_compare_spec (place (Prim2SF x)) (place (Prim2SF x))) as Hs.
    destruct (place_compare _ _); [done|..];
      destruct (place (Prim2SF x)) as [[? ?] ?]; unfold before in Hs;
      cbn in Hs; lia.
Qed.

(** Comparisons of numbers that are not [NaN], by place. *)
Lemma ltb_place (x y : float) :
  is_nan x = false → is_nan y = false →
  (x <? y)%float = true ↔ before (place (Prim2SF x)) (place (Prim2SF y)).
Proof.
  intros Hx%is_nan_spec Hy%is_nan_spec.
  rewrite FloatAxioms.ltb_spec. unfold SFltb. rewrite SFcompare_place by done.
  pose proof (place_compare_spec (place (Prim2SF x)) (place (Prim2SF y))) as Hs.
  destruct (place (Prim2SF x)) as [[a1 a2] a3], (place (Prim2SF y)) as [[b1 b2] b3].
  destruct (place_compare _ _); unfold before in *; cbn [fst snd] in *;
    (split; [try done|try done]); try (injection Hs as -> -> ->); lia.
Qed.

Lemma leb_place (x y : float) :
  is_nan x = false → is_nan y = false →
  (x <=? y)%float = true ↔
  before (place (Prim2SF x)) (place (Prim2SF y))
  ∨ place (Prim2SF x) = place (Prim2SF y).
Proof.
  intros Hx%is_nan_spec Hy%is_nan_spec.
  rewrite FloatAxioms.leb_spec. unfold SFleb. rewrite SFcompare_place by done.
  pose proof (place_compare_spec (place (Prim2SF x)) (place (Prim2SF y))) as Hs.
  destruct (place (Prim2SF x)) as [[a1 a2] a3], (place (Prim2SF y)) as [[b1 b2] b3].
  destruct (place_compare _ _); unfold before in *; cbn [fst snd] in *.
  - split; [by right|done].
  - split; [by left|done].
  - split; [done|]. intros [H|[= -> -> ->]]; lia.
Qed.

(** The order of the numbers that are not [NaN]. *)
Lemma leb_refl (x : float) : is_nan x = false → (x <=? x)%float = true.
Proof. intros Hx. apply leb_place; [done..|]. by right. Qed.

Lemma leb_trans (x y z : float) :
  is_nan x = false → is_nan y = false → is_nan z = false →
  (x <=? y)%float = true → (y <=? z)%float = true → (x <=? z)%float = true.
Proof.
  intros Hx Hy Hz Hxy%leb_place Hyz%leb_place; try done.
  apply leb_place; [done..|].
  destruct (place (Prim2SF x)) as [[a1 a2] a3], (place (Prim2SF y)) as [[b1 b2] b3],
    (place (Prim2SF z)) as [[c1 c2] c3].
  unfold before in *. cbn [fst snd] in *.
  destruct Hxy as [Hxy|[= -> -> ->]], Hyz as [Hyz|[= -> -> ->]];
    [left; lia|by left|by left|by right].
Qed.

Lemma ltb_leb (x y : float) :
  is_nan x = false → is_nan y = false →
  (x <? y)%float = true → (x <=? y)%float = true.
Proof.
  intros Hx Hy Hlt%ltb_place; try done. apply leb_place; [done..|]. by left.
Qed.

Lemma not_ltb_leb (x y : float) :
  is_nan x = false → is_nan y = false →
  (x <? y)%float = false → (y <=? x)%float = true.
Proof.
  intros Hx Hy Hlt. apply leb_place; [done..|].
  assert (¬ before (place (Prim2SF x)) (place (Prim2SF y))) as Hnot.
  { intros H%ltb_place; [congruence|done..]. }
  destruct (place (Prim2SF x)) as [[a1 a2] a3], (place (Prim2SF y)) as [[b1 b2] b3].
  unfold before in *. cbn [fst snd] in *.
  destruct (decide (a1 = b1)) as [->|?]; [|left; lia].
  destruct (decide (a2 = b2)) as [->|?]; [|left; lia].
  destruct (decide (a3 = b3)) as [->|?]; [by right|left; lia].
Qed.

Lemma eqb_not_nan (x y : float) :
  (x =? y)%float = true → is_nan x = false ∧ is_nan y = false.
Proof.
  rewrite !is_nan_spec, FloatAxioms.eqb_spec. unfold SFeqb.
  by destruct (Prim2SF x), (Prim2SF y).
Qed.

Lemma eqb_leb (x y : float) :
  (x =? y)%float = true → (x <=? y)%float = true ∧ (y <=? x)%float = true.
Proof.
  intros Heq. destruct (eqb_not_nan x y Heq) as [Hx Hy].
  assert (place (Prim2SF x) = place (Prim2SF y)) as Hplace.
  { rewrite FloatAxioms.eqb_spec in Heq. unfold SFeqb in Heq.
    rewrite SFcompare_place in Heq by by apply is_nan_spec.
    pose proof (place_compare_spec (place (Prim2SF x)) (place (Prim2SF y))) as Hs.
    by destruct (place_compare _ _). }
  split; (apply leb_place; [done..|]); by right.
Qed.

(** [Math.min] and [Math.max] of two numbers that are not [NaN]. *)
Lemma Math_min_spec (a b : float) :
  is_nan a = false → is_nan b = false →
  let m := Math_min a b in
  (m = a ∨ m = b) ∧ (m <=? a)%float = true ∧ (m <=? b)%float = true.
Proof.
  intros Ha Hb. cbn zeta. unfold Math_min. rewrite Ha, Hb. cbn [orb].
  destruct (a <? b)%float eqn:Hab.
  { split_and!; [by left|by apply leb_refl|by apply ltb_leb]. }
  destruct (b <? a)%float eqn:Hba.
  { split_and!; [by right|by apply ltb_leb|by apply leb_refl]. }
  destruct (get_sign a).
  - split_and!; [by left|by apply leb_refl|by apply not_ltb_leb].
  - split_and!; [by right|by apply not_ltb_leb|by apply leb_refl].
Qed.

Lemma Math_max_spec (a b : float) :
  is_nan a = false → is_nan b = false →
  let m := Math_max a b in
  (m = a ∨ m = b) ∧ (a <=? m)%float = true ∧ (b <=? m)%float = true.
Proof.
  intros Ha Hb. cbn zeta. unfold Math_max. rewrite Ha, Hb. cbn [orb].
  destruct (a <? b)%float eqn:Hab.
  { split_and!; [by right|by apply ltb_leb|by apply leb_refl]. }
  destruct (b <? a)%float eqn:Hba.
  { split_and!; [by left|by apply leb_refl|by apply ltb_leb]. }
  destruct (get_sign a).
  - split_and!; [by right|by apply not_ltb_leb|by apply leb_refl].
  - split_and!; [by left|by apply leb_refl|by apply not_ltb_leb].
Qed.

Lemma fold_min_spec (vs : list float) :
  ∀ m : float,
  is_nan m = false →
  Forall (λ v, is_nan v = false) vs →
  let lo := foldl Math_min m vs in
  is_nan lo = false ∧ lo ∈ m :: vs ∧
  (lo <=? m)%float = true ∧ Forall (λ v, (lo <=? v)%float = true) vs.
Proof.
  induction vs as [|v vs IH]; intros m Hm Hvs; cbn zeta.
  - cbn. split_and!; [done|by left|by apply leb_refl|constructor].
  - apply Forall_cons in Hvs as [Hv Hvs]. cbn [foldl].
    destruct (Math_min_spec m v Hm Hv) as (Hin & Hle_m & Hle_v).
    assert (is_nan (Math_min m v) = false) as Hnan
      by (by destruct Hin as [-> | ->]).
    destruct (IH (Math_min m v) Hnan Hvs) as (Hlo & Hlo_in & Hlo_le & Hall).
    split_and!; [done| | |].
    + apply elem_of_cons in Hlo_in as [->|Hlo_in]; [|right; by right].
      destruct Hin as [-> | ->]; [by left|right; by left].
    + by apply leb_trans with (Math_min m v).
    + apply Forall_cons. split; [|done].
      by apply leb_trans with (Math_min m v).
Qed.

Lemma fold_max_spec (vs : list float) :
  ∀ m : float,
  is_nan m = false →
  Forall (λ v, is_nan v = false) vs →
  let hi := foldl Math_max m vs in
  is_nan hi = false ∧ hi ∈ m :: vs ∧
  (m <=? hi)%float = true ∧ Forall (λ v, (v <=? hi)%float = true) vs.
Proof.
  induction vs as [|v vs IH]; intros m Hm Hvs; cbn zeta.
  - cbn. split_and!; [done|by left|by apply leb_refl|constructor].
  - apply Forall_cons in Hvs as [Hv Hvs]. cbn [foldl].
    destruct (Math_max_spec m v Hm Hv) as (Hin & Hle_m & Hle_v).
    assert (is_nan (Math_max m v) = false) as Hnan
      by (by destruct Hin as [-> | ->]).
    destruct (IH (Math_max m v) Hnan Hvs) as (Hhi & Hhi_in & Hhi_le & Hall).
    split_and!; [done| | |].
    + apply elem_of_cons in Hhi_in as [->|Hhi_in]; [|right; by right].
      destruct Hin as [-> | ->]; [by left|right; by left].
    + by apply leb_trans with (Math_max m v).
    + apply Forall_cons. split; [|done].
      by apply leb_trans with (Math_max m v).
Qed.

(** *** Statistics *)

Lemma numeric_loop_fold (field : text) (rows : list (gmap text value)) :
  ∀ (min max sum : float) (count : nat),
  numeric_loop field rows min max sum count
  = (foldl Math_min min (omap (numeric_field field) rows),
     foldl Math_max max (omap (numeric_field field) rows),
     foldl PrimFloat.add sum (omap (numeric_field field) rows),
     (count + length (omap (numeric_field field) rows))%nat).
Proof.
  induction rows as [|row rows IH]; intros min max sum count;
    cbn [numeric_loop omap list_omap].
  - cbn. by rewrite Nat.add_0_r.
  - destruct (numeric_field field row) as [v|]; rewrite IH; cbn [foldl length];
      [|done]. f_equal. lia.
Qed.

(** The loop takes no [NaN]. *)
Lemma numeric_fields_not_nan (field : text) (rows : list (gmap text value)) :
  Forall (λ v, is_nan v = false) (omap (numeric_field field) rows).
Proof.
  induction rows as [|row rows IH]; [constructor|].
  cbn [omap list_omap]. unfold numeric_field at 1.
  destruct (row !! field) as [[s|n]|]; try done.
  destruct (is_nan n) eqn:Hn; [done|]. by apply Forall_cons.
Qed.

(** X26.  [calculateNumericStats] over rows of which none has a number
    in the field reports zero for everything, not the infinities it
    starts from. *)
Theorem numeric_stats_without_numbers
    (rows : list (gmap text value)) (field : text) :
  Forall (λ row, numeric_field field row = None) rows →
  let stats := calculateNumericStats rows field in
  stat_min stats = 0%float ∧ stat_max stats = 0%float ∧
  stat_sum stats = 0%float ∧ stat_avg stats = 0%float ∧
  stat_count stats = 0%nat.
Proof.
  intros Hnone. unfold calculateNumericStats. rewrite numeric_loop_fold.
  assert (omap (numeric_field field) rows = []) as ->.
  { induction Hnone as [|row rows Hrow _ IH]; [done|].
    cbn [omap list_omap]. by rewrite Hrow. }
  by vm_compute.
Qed.

(** X27.  The statistics are those of the numbers found in the field,
    in the order of the rows, rows without a number being skipped:
    [count] is how many there are, [sum] their running total from
    zero, rounded to two decimals at the end, [avg] the unrounded total
    divided by [count], then rounded.  [min] and [max] bound every
    number found, and each is one of them or zero (zero is reported
    where the loop ends on the infinity it started from). *)
Theorem numeric_stats_of_values
    (rows : list (gmap text value)) (field : text) :
  let vs := omap (numeric_field field) rows in
  let stats := calculateNumericStats rows field in
  stat_count stats = length vs ∧
  stat_sum stats = round2 (sum_from_zero vs) ∧
  stat_avg stats
  = match vs with
    | [] => 0%float
    | _ => round2 (sum_from_zero vs / count_number (length vs))
    end ∧
  Forall (λ v, (stat_min stats <=? v)%float = true ∧
               (v <=? stat_max stats)%float = true) vs ∧
  (stat_min stats ∈ vs ∨ stat_min stats = 0%float) ∧
  (stat_max stats ∈ vs ∨ stat_max stats = 0%float).
Proof.
  cbn zeta. unfold calculateNumericStats. rewrite numeric_loop_fold.
  pose proof (numeric_fields_not_nan field rows) as Hvs.
  set (vs := omap (numeric_field field) rows) in *.
  destruct (fold_min_spec vs infinity eq_refl Hvs) as (Hlo & Hlo_in & _ & Hlo_all).
  destruct (fold_max_spec vs neg_infinity eq_refl Hvs)
    as (Hhi & Hhi_in & _ & Hhi_all).
  cbn zeta in *.
  set (lo := foldl Math_min infinity vs) in *.
  set (hi := foldl Math_max neg_infinity vs) in *.
  cbn [stat_min stat_max stat_sum stat_avg stat_count Nat.add].
  assert (Forall (λ v, ((if (lo =? infinity)%float then 0%float else lo) <=? v)%float
                       = true) vs) as Hmin.
  { destruct (lo =? infinity)%float eqn:Hinf; [|done].
    apply eqb_leb in Hinf as [_ Hinf].
    rewrite Forall_forall in Hlo_all, Hvs. apply Forall_forall. intros v Hv.
    apply leb_trans with infinity; [done|done|by apply Hvs|done|].
    apply leb_trans with lo; [done|done|by apply Hvs|done|by apply Hlo_all]. }
  assert (Forall (λ v, (v <=? (if (hi =? neg_infinity)%float then 0%float else hi))%float
                       = true) vs) as Hmax.
  { destruct (hi =? neg_infinity)%float eqn:Hinf; [|done].
    apply eqb_leb in Hinf as [Hinf _].
    rewrite Forall_forall in Hhi_all, Hvs. apply Forall_forall. intros v Hv.
    apply leb_trans with neg_infinity; [by apply Hvs|done|done| |done].
    apply leb_trans with hi; [by apply Hvs|done|done|by apply Hhi_all|done]. }
  split_and!.
  - done.
  - done.
  - unfold sum_from_zero. by destruct vs.
  - rewrite Forall_forall in Hmin, Hmax. apply Forall_forall. intros v Hv.
    split; [by apply Hmin|by apply Hmax].
  - destruct (lo =? infinity)%float eqn:Hinf; [by right|left].
    apply elem_of_cons in Hlo_in as [Heq|Hin]; [|done].
    rewrite Heq in Hinf. done.
  - destruct (hi =? neg_infinity)%float eqn:Hinf; [by right|left].
    apply elem_of_cons in Hhi_in as [Heq|Hin]; [|done].
    rewrite Heq in Hinf. done.
Qed.

(** *** Sample runs *)

Lemma compare_codes_total (a b : text) :
  compare_codes a b ≤ 0 ∨ compare_codes b a ≤ 0.
Proof.
  revert b. induction a as [|x a IH]; intros [|y b]; cbn; try (left; lia).
  - right. lia.
  - rewrite (Nat.compare_antisym (nat_of_ascii x) (nat_of_ascii y)).
    destruct (nat_of_ascii x ?= nat_of_ascii y)%nat; cbn;
      [apply IH|left; lia|right; lia].
Qed.

Lemma parseLine_returns_iff_first_match_witness :
  ((∀ fuel values, parseLine fuel (lit ",EU,DE,5") ≠ Some (inr values)) ∧
   (∀ fuel, max_array_length < Z.of_nat fuel →
            parseLine fuel (lit ",EU,DE,5")
            = Some (inl (lit "Invalid array length")))) ∧
  (∃ values, parseLine 13 (lit "1,EU,DE,100") = Some (inr values)).
Proof.
  split.
  - apply (proj1 (parseLine_returns_iff_first_match (lit ",EU,DE,5"))).
    reflexivity.
  - apply (proj2 (parseLine_returns_iff_first_match (lit "1,EU,DE,100")));
      [reflexivity|cbn; unfold max_array_length; lia|cbn; lia].
Defined.

Lemma processCsvFile_throws_on_empty_first_match_witness :
  let buffer :=
    lit "id,region,country,amount" ++ ["010"%char] ++ lit ",EU,DE,5" in
  (∀ fuel result,
     processCsvFile compare_codes parse_decimal fuel
       (Build_Timings 0 1 2 3 4 5 6 7) buffer
     ≠ Some (inr result)) ∧
  (∀ fuel, max_array_length + 1 < Z.of_nat fuel →
     processCsvFile compare_codes parse_decimal fuel
       (Build_Timings 0 1 2 3 4 5 6 7) buffer
     = Some (inl (lit "Failed to parse CSV: Invalid array length"))).
Proof.
  apply (processCsvFile_throws_on_empty_first_match compare_codes
           parse_decimal (Build_Timings 0 1 2 3 4 5 6 7)
           (lit "id,region,country,amount" ++ ["010"%char]
            ++ lit ",EU,DE,5")
           (lit ",EU,DE,5")).
  - vm_compute. apply list_elem_of_further, list_elem_of_here.
  - reflexivity.
Defined.

Lemma line_parsers_strip_quotes_witness :
  let line := [dquote] ++ lit "Smith, John" ++ [dquote] ++ lit ",EU" in
  (∀ values, parseLine 5 line = Some (inr values) →
             Forall (λ v, dquote ∉ v) values) ∧
  Forall (λ v, dquote ∉ v) (parseCSVLine line) ∧
  parseCSVLine line ≠ [].
Proof.
  apply (line_parsers_strip_quotes 5
           ([dquote] ++ lit "Smith, John" ++ [dquote] ++ lit ",EU")).
Defined.

Lemma blank_input_is_rejected_witness :
  let buffer := [" "; "010"; "013"; "010"; "009"]%char in
  processCsvFile compare_codes parse_decimal 0
    (Build_Timings 0 1 2 3 4 5 6 7) buffer
    = Some (inl (lit "Failed to parse CSV: CSV file is empty")) ∧
  parseCSVBuffer buffer = inl (lit "CSV file is empty").
Proof.
  apply (blank_input_is_rejected compare_codes parse_decimal 0
           (Build_Timings 0 1 2 3 4 5 6 7)
           [" "; "010"; "013"; "010"; "009"]%char).
  reflexivity.
Defined.

Lemma header_only_gives_empty_result_witness :
  ∃ res,
    processCsvFile compare_codes parse_decimal 30
      (Build_Timings 0 1 2 3 4 5 6 7)
      (lit "id,region,country,amount" ++ ["010"%char])
    = Some (inr res) ∧
    rowCount res = 0%nat ∧ successCount res = 0%nat ∧
    errorCount res = 0%nat ∧ summaries res = [].
Proof.
  apply (header_only_gives_empty_result compare_codes parse_decimal 30
           (Build_Timings 0 1 2 3 4 5 6 7)
           (lit "id,region,country,amount" ++ ["010"%char])
           (lit "id,region,country,amount")).
  - reflexivity.
  - reflexivity.
  - cbn. unfold max_array_length. lia.
  - cbn. lia.
Defined.

Lemma summaries_count_valid_rows_witness :
  ∃ res,
    processCsvFile compare_codes parse_decimal 10
      (Build_Timings 0 1 2 3 4 5 6 7) sample = Some (inr res) ∧
    sum_list_with s_count (summaries res) = successCount res ∧
    Forall (λ s, (1 ≤ s_count s)%nat) (summaries res) ∧
    (summaries res = [] ↔ successCount res = 0%nat).
Proof.
  eexists. split; [vm_compute; reflexivity|].
  apply (summaries_count_valid_rows compare_codes parse_decimal 10
           (Build_Timings 0 1 2 3 4 5 6 7) sample).
  vm_compute. reflexivity.
Defined.

Lemma summaries_sorted_by_region_witness :
  let row r a := {| region := lit r; country := lit "X"; amount := a;
                    id := None; date := None; category := None |} in
  Sorted (λ a b, compare_codes (s_region a) (s_region b) ≤ 0)
         (aggregateRegionData compare_codes
            [row "North" 1; row "Asia" 2.5; row "Europe" 3]%float).
Proof.
  intros row.
  apply (summaries_sorted_by_region compare_codes
           [row "North" 1; row "Asia" 2.5; row "Europe" 3]%float).
  apply compare_codes_total.
Defined.

Lemma make_row_reads_columns_witness :
  let headers := [lit "Region"; lit "__proto__"; lit "Note"] in
  let values := [lit "EU"; lit "x"] in
  (∀ i header, headers !! i = Some header →
     normalize_key header ≠ lit "__proto__" →
     make_row parse_decimal headers values !! normalize_key header
     = Some (cell parse_decimal header (values !! i)).2) ∧
  (∀ i header, headers !! i = Some header →
     normalize_key header ≠ lit "__proto__" →
     (length values ≤ i)%nat →
     amount_like (normalize_key header) = false →
     make_row parse_decimal headers values !! normalize_key header
     = Some (VStr [])) ∧
  (∀ key, key ∉ normalize_key <$> headers ∨ key = lit "__proto__" →
     make_row parse_decimal headers values !! key = None).
Proof.
  apply (make_row_reads_columns parse_decimal
           [lit "Region"; lit "__proto__"; lit "Note"] [lit "EU"; lit "x"]).
  apply (bool_decide_unpack _). vm_compute. exact I.
Defined.

Lemma zip_workbook_not_detected_witness :
  detectFileType (zip_signature ++ lit "a,b" ++ ["010"%char]) ≠ Xlsx.
Proof.
  apply (zip_workbook_not_detected
           (zip_signature ++ lit "a,b" ++ ["010"%char])).
  - reflexivity.
  - cbn. lia.
Defined.

Lemma numeric_stats_without_numbers_witness :
  let rows : list (gmap text value) :=
    [ {[ lit "amount" := VStr (lit "n/a") ]};
      {[ lit "amount" := VNum nan ]};
      {[ lit "region" := VStr (lit "EU") ]} ] in
  let stats := calculateNumericStats rows (lit "amount") in
  stat_min stats = 0%float ∧ stat_max stats = 0%float ∧
  stat_sum stats = 0%float ∧ stat_avg stats = 0%float ∧
  stat_count stats = 0%nat.
Proof.
  apply (numeric_stats_without_numbers
           [ {[ lit "amount" := VStr (lit "n/a") ]};
             {[ lit "amount" := VNum nan ]};
             {[ lit "region" := VStr (lit "EU") ]} ] (lit "amount")).
  repeat constructor.
Defined.

End IngestMore.

(** ** Conversion to the wire format *)

Module ProtoMore.
Import Ingest Proto.

Ltac read_property :=
  repeat first
    [ rewrite lookup_insert_eq
    | rewrite lookup_insert_ne by (vm_compute; discriminate)
    | rewrite lookup_empty ].

(** The two zeros are the numbers equal to zero. *)
Lemma is_zero_cases (x : float) :
  is_zero x = true → x = 0%float ∨ x = (-0)%float.
Proof.
  unfold is_zero. rewrite FloatAxioms.eqb_spec. unfold SFeqb.
  change (Prim2SF PrimFloat.zero) with (S754_zero false). intros Hzero.
  rewrite <- (SF2Prim_Prim2SF x).
  destruct (Prim2SF x) as [[]|[]| |[] m e]; try done; [by right|by left].
Qed.

(** Rounding a zero to two decimals gives a zero. *)
Lemma round2_of_zero (x : float) :
  is_zero x = true → is_zero (round2 x) = true.
Proof. by intros [-> | ->]%is_zero_cases; vm_compute. Qed.

Lemma js_or_undefined (v : any) :
  js_or (Some v) None = if js_truthy (Some v) then Some v else None.
Proof. reflexivity. Qed.

(** An integer read through [||]. *)
Lemma int_undefined (d : Z) :
  (if negb (d =? 0) then Some (AInt d) else None) = None ↔ d = 0.
Proof. destruct (Z.eqb_spec d 0); cbn; split; (done || lia). Qed.

(** X28.  [toProtoRegionSummaries] reads [amountSum] through [||], so a
    summary of the parser is sent without its [amount_sum] exactly when
    the sum it returns is a zero or [NaN], and with that sum otherwise.
    In particular a group whose amounts add up to zero is sent without
    [amount_sum].  Region, country and count are always carried
    over. *)
Theorem zero_sum_is_sent_undefined (data : Group) :
  let s := summarize data in
  let sent := toProtoRegionSummary (summary_object s) in
  p_region sent = Some (AStr (g_region data)) ∧
  p_country sent = Some (AStr (g_country data)) ∧
  p_count sent = Some (AInt (Z.of_nat (g_count data))) ∧
  amount_sum sent
  = (if is_zero (amountSum s) || is_nan (amountSum s) then None
     else Some (ANum (amountSum s))) ∧
  (is_zero (g_amountSum data) = true → amount_sum sent = None).
Proof.
  cbn zeta. unfold toProtoRegionSummary, summary_object, summarize.
  cbn [p_region p_country p_count amount_sum s_region s_country s_count
       amountSum amountAvg].
  read_property. rewrite js_or_undefined. cbn [js_truthy].
  split; [reflexivity|]. split; [reflexivity|]. split; [reflexivity|].
  split.
  - by destruct (_ || _).
  - intros Hzero%round2_of_zero. by rewrite Hzero.
Qed.

Section Local.

Variable localeCompare : text → text → Z.
Variable parseFloat : text → float.

(** X29.  [toProtoStats] reads each duration through [||]: of the
    statistics of a [processCsvFile] result, a stage is sent without
    its duration exactly when its two clock readings coincide. *)
Theorem zero_duration_is_sent_undefined
    (fuel : nat) (t : Timings) (buffer : text) (res : ParseResult) :
  processCsvFile localeCompare parseFloat fuel t buffer = Some (inr res) →
  let sent := toProtoStats (stats_object (stats res)) in
  (parse_duration_ms sent = None ↔ parseEnd t = parseStart t) ∧
  (validate_duration_ms sent = None ↔ validationEnd t = validationStart t) ∧
  (aggregate_duration_ms sent = None ↔ aggregateEnd t = aggregateStart t) ∧
  (total_duration_ms sent = None ↔ endTime t = startTime t).
Proof.
  unfold processCsvFile. intros Hrun.
  destruct (parseCSVWithRegex parseFloat fuel buffer)
    as [[message|[headers rows]]|]; cbn in Hrun; try discriminate.
  injection Hrun as <-.
  cbn zeta. unfold toProtoStats, stats_object, finish.
  destruct (validate_rows rows [] 0) as [validatedRows errors].
  cbn [stats parse_duration_ms validate_duration_ms aggregate_duration_ms
       total_duration_ms parseDurationMs validateDurationMs
       aggregateDurationMs totalDurationMs].
  read_property. rewrite !js_or_undefined. cbn [js_truthy].
  rewrite !int_undefined. lia.
Qed.

End Local.

Lemma zero_duration_is_sent_undefined_witness :
  ∃ res,
    processCsvFile compare_codes parse_decimal 30
      (Build_Timings 0 1 1 3 4 5 6 7)
      (lit "id,region,country,amount" ++ ["010"%char])
    = Some (inr res) ∧
    parse_duration_ms (toProtoStats (stats_object (stats res))) = None ∧
    total_duration_ms (toProtoStats (stats_object (stats res))) ≠ None.
Proof.
  eexists. split; [vm_compute; reflexivity|].
  match goal with
  | |- context [stats ?r] =>
      pose proof (zero_duration_is_sent_undefined compare_codes parse_decimal
                    30 (Build_Timings 0 1 1 3 4 5 6 7)
                    (lit "id,region,country,amount" ++ ["010"%char]) r
                    ltac:(vm_compute; reflexivity)) as (Hparse & _ & _ & Htotal)
  end.
  split.
  - apply Hparse. reflexivity.
  - intros Hnone. apply Htotal in Hnone. discriminate.
Defined.

(** Two amounts that cancel. *)
Lemma zero_sum_is_sent_undefined_witness :
  let data := {| g_region := lit "EU"; g_country := lit "DE";
                 g_count := 2; g_amountSum := (12.5 + -12.5)%float |} in
  amount_sum (toProtoRegionSummary (summary_object (summarize data))) = None.
Proof.
  apply (zero_sum_is_sent_undefined
           {| g_region := lit "EU"; g_country := lit "DE";
              g_count := 2; g_amountSum := (12.5 + -12.5)%float |}).
  reflexivity.
Defined.

End ProtoMore.
